(** * The radial flow of pyro/distributions/transforms/radial.py

    A shallow embedding of [ConditionedRadial], [ConditionalRadial] and the
    part of [torch.distributions.Transform] they rely on, followed by the
    properties claimed for them.

    Tensors are modelled as a shape together with a read function from
    multi-indices to scalars.  The scalar operations are an interface
    ([Scalar]): everything that only depends on how the tensor program is
    put together is proved for every implementation of the interface.  The
    program runs on IEEE floats, and what depends on the arithmetic is
    stated for them ([IEEE.FScalar]: the operations of IEEE 754 for any
    precision, with the [exp] and [log1p] of the C library as a
    parameter).  Exact arithmetic over [R] only supplies the elements of
    some of the concrete stores that the general statements are applied
    to. *)

From Stdlib Require Import List Arith ZArith Lia Bool Reals Lra SpecFloat.
Import ListNotations.

(** ** Scalars *)

Class Scalar := {
  scalar : Type;
  s_zero : scalar;
  s_add : scalar -> scalar -> scalar;
  s_sub : scalar -> scalar -> scalar;
  s_mul : scalar -> scalar -> scalar;
  s_neg : scalar -> scalar;
  s_recip : scalar -> scalar;       (* Tensor.reciprocal *)
  s_sqrt : scalar -> scalar;
  s_softplus : scalar -> scalar;    (* F.softplus *)
  s_log1p : scalar -> scalar;       (* torch.log1p *)
  s_of_Z : Z -> scalar              (* a Python int used as a scalar *)
}.

(** ** Exceptions *)

Inductive exn := KeyError | RuntimeError | TypeError | IndexError.

Inductive result (A : Type) :=
| Ok (a : A)
| Raise (e : exn).
Arguments Ok {A} a.
Arguments Raise {A} e.

Definition rbind {A B} (r : result A) (k : A -> result B) : result B :=
  match r with
  | Ok a => k a
  | Raise e => Raise e
  end.

Declare Scope res_scope.
Delimit Scope res_scope with res.
Notation "x <~ r ;; k" := (rbind r (fun x => k))
  (at level 61, r at next level, right associativity) : res_scope.

Module Tensor.
Section Ops.
Context {K : Scalar}.

Definition shape := list nat.
Definition index := list nat.

Record tensor := mkT { tshape : shape; tget : index -> scalar }.

(** [valid sh ix]: [ix] addresses an element of a tensor of shape [sh]. *)
Fixpoint valid (sh : shape) (ix : index) : bool :=
  match sh, ix with
  | [], [] => true
  | n :: sh', i :: ix' => (i <? n) && valid sh' ix'
  | _, _ => false
  end.

(** Value equality of tensors: same shape, same elements. *)
Definition teq (a b : tensor) : Prop :=
  tshape a = tshape b /\
  forall ix, valid (tshape a) ix = true -> tget a ix = tget b ix.

(** *** Broadcasting

    Shapes are aligned at their last dimension; two sizes are compatible
    when they are equal or one of them is 1. *)

Definition bdim (m n : nat) : option nat :=
  if m =? n then Some m
  else if m =? 1 then Some n
  else if n =? 1 then Some m
  else None.

Fixpoint bshape_rev (a b : list nat) : option (list nat) :=
  match a, b with
  | [], _ => Some b
  | _, [] => Some a
  | m :: a', n :: b' =>
      match bdim m n, bshape_rev a' b' with
      | Some d, Some c => Some (d :: c)
      | _, _ => None
      end
  end.

Definition broadcast_shapes (a b : shape) : option shape :=
  option_map (@rev nat) (bshape_rev (rev a) (rev b)).

(** The element of an operand of shape [sh] that is read for the element
    [ix] of the broadcast result: the trailing components of [ix], with 0
    wherever the operand has size 1. *)
Fixpoint bidx_rev (sh ix : list nat) : list nat :=
  match sh, ix with
  | n :: sh', i :: ix' => (if n =? 1 then 0 else i) :: bidx_rev sh' ix'
  | _, _ => []
  end.

Definition bidx (sh : shape) (ix : index) : index :=
  rev (bidx_rev (rev sh) (rev ix)).

(** Elementwise unary and (broadcasting) binary operations. *)
Definition tmap (f : scalar -> scalar) (a : tensor) : tensor :=
  mkT (tshape a) (fun ix => f (tget a ix)).

Definition tmap2 (f : scalar -> scalar -> scalar) (a b : tensor) : result tensor :=
  match broadcast_shapes (tshape a) (tshape b) with
  | Some sh =>
      Ok (mkT sh (fun ix => f (tget a (bidx (tshape a) ix))
                              (tget b (bidx (tshape b) ix))))
  | None => Raise RuntimeError
  end.

Definition tadd := tmap2 s_add.
Definition tsub := tmap2 s_sub.
Definition tmul := tmap2 s_mul.
Definition tneg := tmap s_neg.

(** *** Reductions over the last dimension *)

(** [f 0 + f 1 + ... + f (d-1)], summed from the left, and [s_zero] for
    an empty range. *)
Definition s_sum (d : nat) (f : nat -> scalar) : scalar :=
  match d with
  | 0 => s_zero
  | S k => fold_left (fun acc j => s_add acc (f j)) (seq 1 k) (f 0)
  end.

(** [t.norm(dim=-1, keepdim=True)]: the 2-norm of every trailing vector,
    the reduced dimension kept with size 1.  A 0-dimensional tensor is
    accepted by torch with [dim=-1] and treated as a single element. *)
Definition tnorm_last (a : tensor) : tensor :=
  match tshape a with
  | [] => mkT [] (fun _ => s_sqrt (s_mul (tget a []) (tget a [])))
  | _ :: _ =>
      mkT (removelast (tshape a) ++ [1])
          (fun ix => s_sqrt (s_sum (last (tshape a) 0)
                       (fun j => let v := tget a (removelast ix ++ [j]) in
                                 s_mul v v)))
  end.

(** [t.sum(-1)]. *)
Definition tsum_last (a : tensor) : tensor :=
  match tshape a with
  | [] => a
  | _ :: _ =>
      mkT (removelast (tshape a))
          (fun ix => s_sum (last (tshape a) 0) (fun j => tget a (ix ++ [j])))
  end.

(** [t.size(-1)]; an [IndexError] on a 0-dimensional tensor. *)
Definition tsize_last (a : tensor) : result nat :=
  match tshape a with
  | [] => Raise IndexError
  | _ :: _ => Ok (last (tshape a) 0)
  end.

(** [torch.stack(ts)] along a new first dimension: the tensors must be
    there and have one shape. *)
Definition stack (ts : list tensor) : result tensor :=
  match ts with
  | [] => Raise RuntimeError
  | t0 :: _ =>
      if forallb (fun t => if list_eq_dec Nat.eq_dec (tshape t) (tshape t0)
                           then true else false) ts
      then Ok (mkT (length ts :: tshape t0)
                   (fun ix => match ix with
                              | [] => tget t0 []
                              | n :: ix' => tget (nth n ts t0) ix'
                              end))
      else Raise RuntimeError
  end.

End Ops.
End Tensor.
Import Tensor.

(** ** The computation of [ConditionedRadial._call]

    The tensor expressions of lines 47-59, in evaluation order.  A
    parameter that is [None] (the constructor's default) makes the first
    operation applied to it raise a [TypeError]. *)

Section Radial.
Context {K : Scalar}.

Definition need (t : option tensor) : result tensor :=
  match t with
  | Some v => Ok v
  | None => Raise TypeError
  end.

(** The local variables of [_call]. *)
Record locals := mkLocals {
  alpha : tensor;
  beta : tensor;
  diff : tensor;
  r : tensor;
  h : tensor;
  h_prime : tensor;
  beta_h : tensor
}.

(** Lines 47-55.  [h ** 2] is the elementwise square. *)
Definition call_locals (x0 alpha_prime beta_prime x : option tensor)
  : result locals :=
  (ap <~ need alpha_prime ;;
   let alpha := tmap s_softplus ap in
   bp <~ need beta_prime ;;
   beta <~ tadd (tneg alpha) (tmap s_softplus bp) ;;
   xv <~ need x ;;
   c <~ need x0 ;;
   diff <~ tsub xv c ;;
   let r := tnorm_last diff in
   ar <~ tadd alpha r ;;
   let h := tmap s_recip ar in
   let h_prime := tneg (tmap (fun v => s_mul v v) h) in
   beta_h <~ tmul beta h ;;
   Ok (mkLocals alpha beta diff r h h_prime beta_h))%res.

(** Lines 57-58: the value assigned to [self._cached_logDetJ]. *)
Definition call_logdet (x0 : option tensor) (lc : locals) : result tensor :=
  (c <~ need x0 ;;
   D <~ tsize_last c ;;
   let t1 := tmap (s_mul (s_of_Z (Z.of_nat D - 1)))
                  (tmap s_log1p (beta_h lc)) in
   bhp <~ tmul (beta lc) (h_prime lc) ;;
   bhpr <~ tmul bhp (r lc) ;;
   s <~ tadd (beta_h lc) bhpr ;;
   t <~ tadd t1 (tmap s_log1p s) ;;
   Ok (tsum_last t))%res.

(** Line 59: the returned tensor. *)
Definition call_output (x : option tensor) (lc : locals) : result tensor :=
  (xv <~ need x ;;
   bd <~ tmul (beta_h lc) (diff lc) ;;
   tadd xv bd)%res.

(** The output of the forward map as a function of the values alone. *)
Definition forward_value (x0 alpha_prime beta_prime : tensor) (x : tensor)
  : result tensor :=
  (lc <~ call_locals (Some x0) (Some alpha_prime) (Some beta_prime) (Some x) ;;
   _ <~ call_logdet (Some x0) lc ;;
   call_output (Some x) lc)%res.

(** The log-determinant of the forward map as a function of the values. *)
Definition logdet_value (x0 alpha_prime beta_prime : tensor) (x : tensor)
  : result tensor :=
  (lc <~ call_locals (Some x0) (Some alpha_prime) (Some beta_prime) (Some x) ;;
   call_logdet (Some x0) lc)%res.

(** ** Objects and the store

    Tensors and transform objects live in a store and are passed by
    reference, so that [is] is equality of references and two tensors with
    equal elements are still two objects.  The methods of
    [ConditionedRadial] and [ConditionalRadial] never update a tensor in
    place, the store of tensors only grows under them; [reset_parameters]
    of [Radial], further down, does. *)

Definition loc := nat.     (* a tensor object *)
Definition eref := nat.    (* a ConditionedRadial object *)
Definition cref := nat.    (* a ConditionalRadial object *)

(** [Transform.__init__(cache_size=1)] gives [_cached_x_y], initially
    [(None, None)]; the three parameters and [_cached_logDetJ] are set in
    lines 26-29.  The cache size is 1 for every object of the class and is
    not kept as an attribute here. *)
Record ConditionedRadial := mkCR {
  x0 : option loc;
  alpha_prime : option loc;
  beta_prime : option loc;
  _cached_x_y : option loc * option loc;
  _cached_logDetJ : option loc
}.

(** The parameter network is an external collaborator: a function from the
    value of the context to three tensors, which may fail. *)
Definition network := tensor -> result (tensor * tensor * tensor).

Record ConditionalRadial := mkCond { nn : network }.

(** Instrumentation: the executions of the body of [_call] and the
    invocations of a parameter network, in order. *)
Inductive event :=
| EvCall (self : eref) (x : loc)
| EvNN (self : cref) (context : loc).

Record world := mkW {
  tensors : list tensor;
  engines : list ConditionedRadial;
  conds : list ConditionalRadial;
  trace : list event
}.

(** A computation changes the store and returns or raises; what was
    written before an exception stays written. *)
Definition M (A : Type) := world -> result A * world.

Definition ret {A} (a : A) : M A := fun w => (Ok a, w).

Definition raise {A} (e : exn) : M A := fun w => (Raise e, w).

Definition bind {A B} (m : M A) (k : A -> M B) : M B :=
  fun w => match m w with
           | (Ok a, w') => k a w'
           | (Raise e, w') => (Raise e, w')
           end.

Definition lift {A} (x : result A) : M A := fun w => (x, w).

End Radial.

Declare Scope m_scope.
Delimit Scope m_scope with m.
Notation "x <- m ;; k" := (bind m (fun x => k))
  (at level 61, m at next level, right associativity) : m_scope.
Notation "m ;;; k" := (bind m (fun _ => k))
  (at level 61, right associativity) : m_scope.

Section Methods.
Context {K : Scalar}.
Open Scope m_scope.

Fixpoint upd {A} (l : list A) (n : nat) (a : A) : list A :=
  match l, n with
  | [], _ => []
  | _ :: l', 0 => a :: l'
  | b :: l', S n' => b :: upd l' n' a
  end.

Definition alloc_tensor (v : tensor) : M loc :=
  fun w => (Ok (length (tensors w)),
            mkW (tensors w ++ [v]) (engines w) (conds w) (trace w)).

Definition alloc_engine (o : ConditionedRadial) : M eref :=
  fun w => (Ok (length (engines w)),
            mkW (tensors w) (engines w ++ [o]) (conds w) (trace w)).

(** The value of an attribute or argument: [None] stays [None]. *)
Definition field_value (w : world) (a : option loc) : option tensor :=
  match a with
  | Some l => nth_error (tensors w) l
  | None => None
  end.

Definition value_of (a : option loc) : M (option tensor) :=
  fun w => (Ok (field_value w a), w).

(** References always point into the store in a Python state; a dangling
    one is answered with a [TypeError]. *)
Definition read_engine (self : eref) : M ConditionedRadial :=
  fun w => match nth_error (engines w) self with
           | Some o => (Ok o, w)
           | None => (Raise TypeError, w)
           end.

Definition write_engine (self : eref) (o : ConditionedRadial) : M unit :=
  fun w => (Ok tt, mkW (tensors w) (upd (engines w) self o) (conds w) (trace w)).

Definition read_cond (self : cref) : M ConditionalRadial :=
  fun w => match nth_error (conds w) self with
           | Some c => (Ok c, w)
           | None => (Raise TypeError, w)
           end.

Definition emit (ev : event) : M unit :=
  fun w => (Ok tt, mkW (tensors w) (engines w) (conds w) (trace w ++ [ev])).

(** [x is x_old], for a tensor [x] and an attribute that may be [None]. *)
Definition is_same (x : loc) (x_old : option loc) : bool :=
  match x_old with
  | Some l => x =? l
  | None => false
  end.

(** *** ConditionedRadial *)

(** [ConditionedRadial(x0, alpha_prime, beta_prime)], lines 24-29. *)
Definition new_ConditionedRadial (x0 alpha_prime beta_prime : option loc)
  : M eref :=
  alloc_engine (mkCR x0 alpha_prime beta_prime (None, None) None).

(** [_call], lines 37-59.  Of the tensors it creates, the log-determinant
    and the output stay reachable and are allocated. *)
Definition _call (self : eref) (x : loc) : M loc :=
  o <- read_engine self ;;
  emit (EvCall self x) ;;;
  c <- value_of (x0 o) ;;
  ap <- value_of (alpha_prime o) ;;
  bp <- value_of (beta_prime o) ;;
  xv <- value_of (Some x) ;;
  lc <- lift (call_locals c ap bp xv) ;;
  ld <- lift (call_logdet c lc) ;;
  l <- alloc_tensor ld ;;
  o1 <- read_engine self ;;
  write_engine self
    (mkCR (x0 o1) (alpha_prime o1) (beta_prime o1) (_cached_x_y o1) (Some l)) ;;;
  yv <- lift (call_output xv lc) ;;
  alloc_tensor yv.

(** [torch.distributions.Transform.__call__] for [cache_size = 1], which
    [self(x)] in line 81 resolves to: the input is compared with the
    cached one by identity; on a hit the cached output is returned, else
    [_call] runs and the pair is stored. *)
Definition __call__ (self : eref) (x : loc) : M (option loc) :=
  o <- read_engine self ;;
  let (x_old, y_old) := _cached_x_y o in
  if is_same x x_old then ret y_old
  else
    y <- _call self x ;;
    o1 <- read_engine self ;;
    write_engine self
      (mkCR (x0 o1) (alpha_prime o1) (beta_prime o1) (Some x, Some y)
            (_cached_logDetJ o1)) ;;;
    ret (Some y).

(** [_inverse], lines 61-71. *)
Definition _inverse (self : eref) (y : loc) : M loc :=
  raise KeyError.

(** [log_abs_det_jacobian], lines 73-83. *)
Definition log_abs_det_jacobian (self : eref) (x y : loc) : M (option loc) :=
  o <- read_engine self ;;
  let (x_old, y_old) := _cached_x_y o in
  (if negb (is_same x x_old) || negb (is_same y y_old)
   then _ <- __call__ self x ;; ret tt
   else ret tt) ;;;
  o1 <- read_engine self ;;
  ret (_cached_logDetJ o1).

(** Calling a method on each element of a list, in order. *)
Fixpoint for_each {A B} (f : A -> M B) (l : list A) : M (list B) :=
  match l with
  | [] => ret []
  | a :: l' => b <- f a ;; bs <- for_each f l' ;; ret (b :: bs)
  end.

(** *** ConditionalRadial *)

(** [condition], lines 158-160. *)
Definition condition (self : cref) (context : loc) : M eref :=
  c <- read_cond self ;;
  ctx <- value_of (Some context) ;;
  ctxv <- lift (need ctx) ;;
  emit (EvNN self context) ;;;
  p <- lift (nn c ctxv) ;;
  let '(a, b, g) := p in
  l0 <- alloc_tensor a ;;
  l1 <- alloc_tensor b ;;
  l2 <- alloc_tensor g ;;
  new_ConditionedRadial (Some l0) (Some l1) (Some l2).

End Methods.

(** ** Exact arithmetic

    The scalar operations over the real numbers, without rounding,
    overflow or underflow.  The program does not compute with them: they
    give the elements of the concrete stores below, to which statements
    that hold for every implementation of the scalars are applied, and no
    property of the program is stated for them alone. *)

(** [F.softplus] with its defaults [beta=1], [threshold=20]: the identity
    above the threshold. *)
Definition softplusR (x : R) : R :=
  if Rlt_dec 20 x then x else ln (1 + exp x).

#[export] Instance RScalar : Scalar := {|
  scalar := R;
  s_zero := 0%R;
  s_add := Rplus;
  s_sub := Rminus;
  s_mul := Rmult;
  s_neg := Ropp;
  s_recip := Rinv;
  s_sqrt := sqrt;
  s_softplus := softplusR;
  s_log1p := fun x => ln (1 + x);
  s_of_Z := IZR
|}.

(** ** A small concrete store

    A center of dimension 2, both pre-parameters 0, one input vector and a
    second tensor with the same elements as the input. *)

Module Example.

Definition vec (l : list R) : tensor :=
  mkT [length l] (fun ix => nth (hd 0 ix) l 0%R).

Definition x0_ex : tensor := vec [0; 0]%R.
Definition ap_ex : tensor := vec [0]%R.
Definition bp_ex : tensor := vec [0]%R.
Definition x_ex : tensor := vec [3; 4]%R.

(** Tensors 0-4 and no transform object. *)
Definition w0 : world := mkW [x0_ex; ap_ex; bp_ex; x_ex; x_ex] [] [] [].

(** [t = ConditionedRadial(x0, alpha_prime, beta_prime)]: object 0. *)
Definition w1 : world :=
  snd (new_ConditionedRadial (Some 0) (Some 1) (Some 2) w0).

(** [y = t(x)] for the tensor 3: the output is tensor 6. *)
Definition w2 : world := snd (__call__ 0 3 w1).

(** A second vector, the batch of the two vectors, and a store with a
    transform object (object 0) and the three of them (tensors 3-5). *)
Definition x2_ex : tensor := vec [1; 0]%R.

Definition X_ex : tensor :=
  match stack [x_ex; x2_ex] with
  | Ok t => t
  | Raise _ => x_ex
  end.

Definition wb : world :=
  mkW [x0_ex; ap_ex; bp_ex; x_ex; x2_ex; X_ex]
      [mkCR (Some 0) (Some 1) (Some 2) (None, None) None] [] [].

(** A store with one [ConditionalRadial] whose network returns the context
    as the center and two fixed pre-parameters. *)
Definition wc : world :=
  mkW [x_ex] []
      [mkCond (fun ctx => Ok (ctx, ap_ex, bp_ex))] [].

End Example.

(** ** IEEE floating-point arithmetic

    The tensors of the program hold binary floating-point numbers:
    binary32 by default ([prec = 24], [emax = 128]), binary64 for double
    tensors ([prec = 53], [emax = 1024]).  [spec_float] and the operations
    on it are the Standard Library's specification of IEEE 754: signed
    zeros, infinities, one NaN, and rounding to nearest, ties to even.
    [exp] and [log1p] are functions of the C library, which the standard
    does not fix to the last bit: they are a parameter. *)

Module IEEE.

Record libm := mkLibm {
  c_exp : spec_float -> spec_float;
  c_log1p : spec_float -> spec_float
}.

Section Format.
Variables (prec emax : Z) (lm : libm).

(** An integer as a float, rounded to nearest. *)
Definition of_Z (n : Z) : spec_float := binary_normalize prec emax n 0 false.

(** [F.softplus(x)] with its defaults [beta = 1] and [threshold = 20]:
    [x] where [x * beta > threshold], and [log1p(exp(x * beta)) / beta]
    elsewhere (a NaN compares false and takes the second branch). *)
Definition softplus (x : spec_float) : spec_float :=
  let xb := SFmul prec emax x (of_Z 1) in
  if SFltb (of_Z 20) xb then x
  else SFdiv prec emax (c_log1p lm (c_exp lm xb)) (of_Z 1).

Definition FScalar : Scalar := {|
  scalar := spec_float;
  s_zero := S754_zero false;
  s_add := SFadd prec emax;
  s_sub := SFsub prec emax;
  s_mul := SFmul prec emax;
  s_neg := SFopp;
  s_recip := fun x => SFdiv prec emax (of_Z 1) x;
  s_sqrt := SFsqrt prec emax;
  s_softplus := softplus;
  s_log1p := c_log1p lm;
  s_of_Z := of_Z
|}.

End Format.

(** A zero of either sign. *)
Definition is_zero (x : spec_float) : bool :=
  match x with
  | S754_zero _ => true
  | _ => false
  end.

(** Neither an infinity nor NaN. *)
Definition is_finite (x : spec_float) : bool :=
  match x with
  | S754_zero _ | S754_finite _ _ _ => true
  | _ => false
  end.

(** The same float, or two zeros (which compare equal whatever their
    signs). *)
Definition same_number (a b : spec_float) : Prop :=
  a = b \/ (is_zero a = true /\ is_zero b = true).

End IEEE.

(** ** Concrete stores of floats *)

Module ExampleF.

Section Stores.
Variables (prec emax : Z) (lm : IEEE.libm).

(** A vector of floats with the given integer values (rounded to the
    format where they are not representable). *)
Definition vec (l : list Z) : @tensor (IEEE.FScalar prec emax lm) :=
  @mkT (IEEE.FScalar prec emax lm) [length l]
       (fun ix => IEEE.of_Z prec emax (nth (hd 0 ix) l 0%Z)).

(** A transform object (object 0) with the parameters [x0],
    [alpha_prime] and [beta_prime] (tensors 0-2) and an input (tensor 3). *)
Definition store (c ap bp x : list Z) : @world (IEEE.FScalar prec emax lm) :=
  @mkW (IEEE.FScalar prec emax lm) [vec c; vec ap; vec bp; vec x]
       [mkCR (Some 0) (Some 1) (Some 2) (None, None) None] [] [].

End Stores.

(** A C library for the closed examples: the values that the C standard
    fixes ([exp(+-0) = 1], [exp(-inf) = +0], [log1p(+-0) = +-0], NaN for
    NaN and for [log1p(-inf)], [+inf] for [+inf]), and first-order
    approximations at the other arguments, where libraries differ in the
    last bits.  What is stated for the examples reads the two functions
    only at arguments where the standard fixes them. *)
Definition lm_ex (prec emax : Z) : IEEE.libm :=
  IEEE.mkLibm
    (fun x => match x with
              | S754_zero _ => IEEE.of_Z prec emax 1
              | S754_infinity true => S754_zero false
              | S754_finite _ _ _ => SFadd prec emax (IEEE.of_Z prec emax 1) x
              | _ => x
              end)
    (fun x => match x with
              | S754_infinity true => S754_nan
              | _ => x
              end).

(** Doubles: the center [[0, 0]], both pre-parameters 21 (so that
    [alpha = 21] and [beta = -21 + 21 = 0]) and the input [[3, 4]]. *)
Definition wz : @world (IEEE.FScalar 53 1024 (lm_ex 53 1024)) :=
  store 53 1024 (lm_ex 53 1024) [0; 0]%Z [21]%Z [21]%Z [3; 4]%Z.

(** Doubles: the same pre-parameters, the center [[-1e308, 0]] and the
    input [[1e308, 0]], all finite. *)
Definition wo : @world (IEEE.FScalar 53 1024 (lm_ex 53 1024)) :=
  store 53 1024 (lm_ex 53 1024) [- 10 ^ 308; 0]%Z [21]%Z [21]%Z
        [10 ^ 308; 0]%Z.

(** Doubles: the center [[3, 4]], [alpha_prime = 21], [beta_prime = 22]
    and the center again, as another tensor object, as the input. *)
Definition wf : @world (IEEE.FScalar 53 1024 (lm_ex 53 1024)) :=
  store 53 1024 (lm_ex 53 1024) [3; 4]%Z [21]%Z [22]%Z [3; 4]%Z.

(** Doubles: the center [[3, 4]], [alpha_prime = [-inf]], whose [exp] is
    [+0] and whose [softplus] is [+0] by the C standard,
    [beta_prime = [21]] and the center again as the input. *)
Definition wu : @world (IEEE.FScalar 53 1024 (lm_ex 53 1024)) :=
  @mkW (IEEE.FScalar 53 1024 (lm_ex 53 1024))
       [vec 53 1024 (lm_ex 53 1024) [3; 4]%Z;
        @mkT (IEEE.FScalar 53 1024 (lm_ex 53 1024)) [1]
             (fun _ => S754_infinity true);
        vec 53 1024 (lm_ex 53 1024) [21]%Z;
        vec 53 1024 (lm_ex 53 1024) [3; 4]%Z]
       [mkCR (Some 0) (Some 1) (Some 2) (None, None) None] [] [].

End ExampleF.

(** ** The closed forms of the specification

    For parameters of the shapes of the data model (center [[D]], both
    scale pre-parameters [[1]]) and the batch element [b] of the input. *)

Section ClosedForms.
Context {K : Scalar}.
Variables (x0v apv bpv xv : tensor) (D : nat).

(** alpha = softplus(alpha_prime) *)
Definition rad_alpha : scalar := s_softplus (tget apv [0]).

(** beta = -alpha + softplus(beta_prime) *)
Definition rad_beta : scalar :=
  s_add (s_neg rad_alpha) (s_softplus (tget bpv [0])).

(** r = || x[b] - x0 || *)
Definition rad_r (b : index) : scalar :=
  s_sqrt (s_sum D (fun j =>
    let v := s_sub (tget xv (b ++ [j])) (tget x0v [j]) in s_mul v v)).

(** h = 1 / (alpha + r) *)
Definition rad_h (b : index) : scalar := s_recip (s_add rad_alpha (rad_r b)).

(** h' = - h^2 *)
Definition rad_h' (b : index) : scalar := s_neg (s_mul (rad_h b) (rad_h b)).

(** y = x + (beta h) (x - x0), component [i] of batch element [b] *)
Definition rad_y (b : index) (i : nat) : scalar :=
  s_add (tget xv (b ++ [i]))
        (s_mul (s_mul rad_beta (rad_h b))
               (s_sub (tget xv (b ++ [i])) (tget x0v [i]))).

(** (D-1) log1p(beta h) + log1p(beta h + beta h' r) *)
Definition rad_logdet (b : index) : scalar :=
  s_add (s_mul (s_of_Z (Z.of_nat D - 1)) (s_log1p (s_mul rad_beta (rad_h b))))
        (s_log1p (s_add (s_mul rad_beta (rad_h b))
                        (s_mul (s_mul rad_beta (rad_h' b)) (rad_r b)))).

End ClosedForms.

Section LocalsSpec.
Context {K : Scalar}.
Variables (x0v apv bpv xv : tensor) (D : nat) (bs : shape).

(** What the locals of [_call] hold for these shapes. *)
Definition locals_spec (lc : locals) : Prop :=
  (tshape (alpha lc) = [1] /\ tget (alpha lc) [0] = rad_alpha apv) /\
  (tshape (beta lc) = [1] /\ tget (beta lc) [0] = rad_beta apv bpv) /\
  (tshape (diff lc) = bs ++ [D] /\
   forall b i, valid bs b = true -> i < D ->
     tget (diff lc) (b ++ [i]) = s_sub (tget xv (b ++ [i])) (tget x0v [i])) /\
  (tshape (r lc) = bs ++ [1] /\
   forall b, valid bs b = true -> tget (r lc) (b ++ [0]) = rad_r x0v xv D b) /\
  (tshape (h lc) = bs ++ [1] /\
   forall b, valid bs b = true ->
     tget (h lc) (b ++ [0]) = rad_h x0v apv xv D b) /\
  (tshape (h_prime lc) = bs ++ [1] /\
   forall b, valid bs b = true ->
     tget (h_prime lc) (b ++ [0]) = rad_h' x0v apv xv D b) /\
  (tshape (beta_h lc) = bs ++ [1] /\
   forall b, valid bs b = true ->
     tget (beta_h lc) (b ++ [0]) =
     s_mul (rad_beta apv bpv) (rad_h x0v apv xv D b)).

End LocalsSpec.

(** ** Predicates on the store *)

Section StorePredicates.
Context {K : Scalar}.

(** The object [self] exists and its three parameters are tensors with
    the given values. *)
Definition radial_engine (w : world) (self : eref) (x0v apv bpv : tensor)
  : Prop :=
  exists o, nth_error (engines w) self = Some o /\
    field_value w (x0 o) = Some x0v /\
    field_value w (alpha_prime o) = Some apv /\
    field_value w (beta_prime o) = Some bpv.

(** The shapes of the data model: a center of dimension [D] and two
    scale pre-parameters of shape [[1]]. *)
Definition radial_shapes (D : nat) (x0v apv bpv : tensor) : Prop :=
  tshape x0v = [D] /\ tshape apv = [1] /\ tshape bpv = [1].

(** [(x, y)] is the cached pair of [o], by identity. *)
Definition cache_hit (o : ConditionedRadial) (x y : loc) : bool :=
  is_same x (fst (_cached_x_y o)) && is_same y (snd (_cached_x_y o)).

(** Two objects with the same three parameter attributes. *)
Definition same_params (o o' : ConditionedRadial) : Prop :=
  x0 o' = x0 o /\ alpha_prime o' = alpha_prime o /\
  beta_prime o' = beta_prime o.

(** What a method of the object [self] may change: it may allocate
    tensors and update the cache attributes of [self]. *)
Definition frame (self : eref) (w w' : world) : Prop :=
  (exists new, tensors w' = tensors w ++ new) /\
  conds w' = conds w /\
  length (engines w') = length (engines w) /\
  (forall e, e <> self -> nth_error (engines w') e = nth_error (engines w) e) /\
  (forall o, nth_error (engines w) self = Some o ->
     exists o', nth_error (engines w') self = Some o' /\ same_params o o').

(** The cache of [self] is consistent: if an input is cached, the cached
    output and log-determinant are tensors holding what lines 47-59
    compute from that input and the parameters. *)
Definition cache_consistent (w : world) (self : eref) : Prop :=
  forall o lx,
    nth_error (engines w) self = Some o ->
    fst (_cached_x_y o) = Some lx ->
    exists lc ld yv l ly,
      call_locals (field_value w (x0 o)) (field_value w (alpha_prime o))
                  (field_value w (beta_prime o)) (field_value w (Some lx))
        = Ok lc /\
      call_logdet (field_value w (x0 o)) lc = Ok ld /\
      call_output (field_value w (Some lx)) lc = Ok yv /\
      _cached_logDetJ o = Some l /\ nth_error (tensors w) l = Some ld /\
      snd (_cached_x_y o) = Some ly /\ nth_error (tensors w) ly = Some yv.

(** The store after a run of [_call] that does not raise. *)
Definition after_call (w : world) (self : eref) (x : loc)
    (o : ConditionedRadial) (ld yv : tensor) : world :=
  mkW (tensors w ++ [ld; yv])
      (upd (engines w) self
           (mkCR (x0 o) (alpha_prime o) (beta_prime o) (_cached_x_y o)
                 (Some (length (tensors w)))))
      (conds w)
      (trace w ++ [EvCall self x]).

(** The store after a run of [__call__] that misses the cache. *)
Definition after_forward (w : world) (self : eref) (x : loc)
    (o : ConditionedRadial) (ld yv : tensor) : world :=
  mkW (tensors w ++ [ld; yv])
      (upd (engines w) self
           (mkCR (x0 o) (alpha_prime o) (beta_prime o)
                 (Some x, Some (S (length (tensors w))))
                 (Some (length (tensors w)))))
      (conds w)
      (trace w ++ [EvCall self x]).

End StorePredicates.

(** ** The outcomes of [_call]

    The stores a run of [_call] can leave, by the line that raises. *)

Section CallOutcomes.
Context {K : Scalar}.

(** The store with one more recorded event. *)
Definition traced (w : world) (ev : event) : world :=
  mkW (tensors w) (engines w) (conds w) (trace w ++ [ev]).

(** The store when line 59 raises: lines 57-58 have already stored the
    log-determinant [ld] in [_cached_logDetJ]. *)
Definition after_failed_output (w : world) (self : eref) (x : loc)
    (o : ConditionedRadial) (ld : tensor) : world :=
  mkW (tensors w ++ [ld])
      (upd (engines w) self
           (mkCR (x0 o) (alpha_prime o) (beta_prime o) (_cached_x_y o)
                 (Some (length (tensors w)))))
      (conds w)
      (trace w ++ [EvCall self x]).

(** What [_call] returns and leaves for an object [o]. *)
Definition call_outcome (w : world) (self : eref) (x : loc)
    (o : ConditionedRadial) : result loc * world :=
  match call_locals (field_value w (x0 o)) (field_value w (alpha_prime o))
                    (field_value w (beta_prime o)) (field_value w (Some x)) with
  | Raise e => (Raise e, traced w (EvCall self x))
  | Ok lc =>
      match call_logdet (field_value w (x0 o)) lc with
      | Raise e => (Raise e, traced w (EvCall self x))
      | Ok ld =>
          match call_output (field_value w (Some x)) lc with
          | Raise e => (Raise e, after_failed_output w self x o ld)
          | Ok yv => (Ok (S (length (tensors w))), after_call w self x o ld yv)
          end
      end
  end.

End CallOutcomes.

(** ** Further concrete stores *)

Module Example2.

(** The parameters of [Example] and an input of dimension 3. *)
Definition x3_ex : tensor := Example.vec [1; 2; 3]%R.

Definition w_mis : world :=
  mkW [Example.x0_ex; Example.ap_ex; Example.bp_ex; x3_ex]
      [mkCR (Some 0) (Some 1) (Some 2) (None, None) None] [] [].

(** The parameters of [Example] and a 0-dimensional input. *)
Definition s_ex : tensor := mkT [] (fun _ => 1%R).

Definition w_scalar : world :=
  mkW [Example.x0_ex; Example.ap_ex; Example.bp_ex; s_ex]
      [mkCR (Some 0) (Some 1) (Some 2) (None, None) None] [] [].

End Example2.

(** ** [u_hat], lines 32-35 *)

(** Elementwise division, [Tensor.div]. *)
Class ScalarDiv (K : Scalar) := { s_div : scalar -> scalar -> scalar }.

(** On floats it is the division of IEEE 754: [0/0] is NaN and a finite
    number divided by a zero is an infinity. *)
Definition FScalarDiv (prec emax : Z) (lm : IEEE.libm)
  : ScalarDiv (IEEE.FScalar prec emax lm) :=
  @Build_ScalarDiv (IEEE.FScalar prec emax lm) (SFdiv prec emax).

Section UHat.
Context {K : Scalar} {KD : ScalarDiv K}.

(** [t.unsqueeze(-1)]. *)
Definition unsqueeze_last (a : tensor) : tensor :=
  mkT (tshape a ++ [1]) (fun ix => tget a (removelast ix)).

(** [t.unsqueeze(-2)]; an [IndexError] on a 0-dimensional tensor. *)
Definition unsqueeze_before_last (a : tensor) : result tensor :=
  match tshape a with
  | [] => Raise IndexError
  | _ :: _ =>
      Ok (mkT (removelast (tshape a) ++ [1; last (tshape a) 0])
              (fun ix => tget a (removelast (removelast ix) ++ [last ix 0])))
  end.

(** Dropping the last dimension, of size 1. *)
Definition drop_last (a : tensor) : tensor :=
  mkT (removelast (tshape a)) (fun ix => tget a (ix ++ [0])).

(** Dropping the dimension before the last, of size 1. *)
Definition drop_before_last (a : tensor) : tensor :=
  mkT (removelast (removelast (tshape a)) ++ [last (tshape a) 0])
      (fun ix => tget a (removelast ix ++ [0; last ix 0])).

(** [t.squeeze(-1)]: the last dimension goes if its size is 1. *)
Definition squeeze_last (a : tensor) : tensor :=
  match tshape a with
  | [] => a
  | _ :: _ => if last (tshape a) 0 =? 1 then drop_last a else a
  end.

(** [t.sum(dim=-1, keepdim=True)]. *)
Definition tsum_last_keepdim (a : tensor) : tensor :=
  match tshape a with
  | [] => a
  | _ :: _ =>
      mkT (removelast (tshape a) ++ [1])
          (fun ix => s_sum (last (tshape a) 0)
                       (fun j => tget a (removelast ix ++ [j])))
  end.

Definition tdiv := tmap2 s_div.

(** The product of two tensors of at least two dimensions: matrices in
    the last two dimensions, the leading ones broadcast. *)
Definition mm_core (A B : tensor) : result tensor :=
  let sa := tshape A in
  let sb := tshape B in
  let ba := removelast (removelast sa) in
  let bb := removelast (removelast sb) in
  let n := last (removelast sa) 0 in
  let m := last sa 0 in
  let m' := last (removelast sb) 0 in
  let p := last sb 0 in
  if m =? m' then
    match broadcast_shapes ba bb with
    | Some bc =>
        Ok (mkT (bc ++ [n; p])
                (fun ix =>
                   let bi := removelast (removelast ix) in
                   let i := last (removelast ix) 0 in
                   let k := last ix 0 in
                   s_sum m (fun j =>
                     s_mul (tget A (bidx ba bi ++ [i; j]))
                           (tget B (bidx bb bi ++ [j; k])))))
    | None => Raise RuntimeError
    end
  else Raise RuntimeError.

(** [torch.matmul]: a 1-dimensional first argument is a row, a
    1-dimensional second argument a column, and the dimension added is
    removed from the result; 0-dimensional arguments are refused. *)
Definition matmul (A B : tensor) : result tensor :=
  match length (tshape A), length (tshape B) with
  | 0, _ => Raise RuntimeError
  | _, 0 => Raise RuntimeError
  | ra, rb =>
      let A' := if ra =? 1
                then mkT (1 :: tshape A) (fun ix => tget A (tl ix))
                else A in
      let B' := if rb =? 1 then unsqueeze_last B else B in
      (C <~ mm_core A' B' ;;
       let C1 := if ra =? 1 then drop_before_last C else C in
       Ok (if rb =? 1 then drop_last C1 else C1))%res
  end.

(** [u_hat(u, w)], lines 32-35.  [-1 + t] adds the scalar to every
    element and [w.pow(2)] is the elementwise square. *)
Definition u_hat (u w : tensor) : result tensor :=
  (u2 <~ unsqueeze_before_last u ;;
   m <~ matmul u2 (unsqueeze_last w) ;;
   let alpha := squeeze_last m in
   let a_prime := tmap (fun v => s_add (s_of_Z (-1)) (s_softplus v)) alpha in
   d <~ tsub a_prime alpha ;;
   q <~ tdiv w (tsum_last_keepdim (tmap (fun v => s_mul v v) w)) ;;
   p <~ tmul d q ;;
   tadd u p)%res.

(** The dot product of the batch elements [b] of two tensors with
    vectors of dimension [D]. *)
Definition dot (u w : tensor) (D : nat) (b : index) : scalar :=
  s_sum D (fun j => s_mul (tget u (b ++ [j])) (tget w (b ++ [j]))).

End UHat.

(** ** [Radial], lines 131-144, and the helper constructors

    [reset_parameters] overwrites the parameter tensors in place, and
    Python's float division can raise: the outcomes of this part add
    [ZeroDivisionError] and [AttributeError] to the exceptions above. *)

Inductive outcome (A : Type) :=
| Returned (a : A)
| Failed (e : exn)
| ZeroDivisionError
| AttributeError.
Arguments Returned {A} a.
Arguments Failed {A} e.
Arguments ZeroDivisionError {A}.
Arguments AttributeError {A}.

Section RadialInit.
Context {K : Scalar}.

(** An in-place update of the tensor object [l]. *)
Definition write_tensor (l : loc) (v : tensor) (w : world) : world :=
  mkW (upd (tensors w) l v) (engines w) (conds w) (trace w).

(** [t.data.uniform_(lo, hi)] on the 1-dimensional tensor object [l]:
    element [i] becomes [u * (hi - lo) + lo] for the [i]-th unit sample
    [u] that the generator yields from now on. *)
Definition uniform_ (gen : nat -> scalar) (lo hi : scalar) (l : loc)
    (w : world) : world :=
  match nth_error (tensors w) l with
  | Some t =>
      write_tensor l
        (mkT (tshape t)
             (fun ix => s_add (s_mul (gen (hd 0 ix)) (s_sub hi lo)) lo)) w
  | None => w
  end.

(** Line 141: [1. / math.sqrt(self.x0.size(0))]. *)
Definition stdv_of (w : world) (o : ConditionedRadial) : outcome scalar :=
  match x0 o with
  | None => AttributeError
  | Some lc =>
      match nth_error (tensors w) lc with
      | None => Failed TypeError
      | Some c =>
          match tshape c with
          | [] => Failed IndexError
          | n :: _ =>
              if n =? 0 then ZeroDivisionError
              else Returned (s_recip (s_sqrt (s_of_Z (Z.of_nat n))))
          end
      end
  end.

(** [self.p.data.uniform_(-stdv, stdv)] for an attribute [p]. *)
Definition fill (gen : nat -> scalar) (stdv : scalar) (p : option loc)
    (w : world) : outcome unit * world :=
  match p with
  | None => (AttributeError, w)
  | Some l => (Returned tt, uniform_ gen (s_neg stdv) stdv l w)
  end.

(** [reset_parameters], lines 140-144.  [gen] is the stream of unit
    samples of the random generator: [alpha_prime] takes the first,
    [beta_prime] the second and [x0] the following ones. *)
Definition reset_parameters (gen : nat -> scalar) (self : eref) (w : world)
  : outcome unit * world :=
  match nth_error (engines w) self with
  | None => (Failed TypeError, w)
  | Some o =>
      match stdv_of w o with
      | Returned stdv =>
          match fill gen stdv (alpha_prime o) w with
          | (Returned _, w1) =>
              match fill (fun k => gen (1 + k)) stdv (beta_prime o) w1 with
              | (Returned _, w2) =>
                  fill (fun k => gen (2 + k)) stdv (x0 o) w2
              | r => r
              end
          | r => r
          end
      | Failed e => (Failed e, w)
      | ZeroDivisionError => (ZeroDivisionError, w)
      | AttributeError => (AttributeError, w)
      end
  end.

(** [Radial(input_dim)], lines 131-138.  [super().__init__()] builds the
    object with the defaults of lines 24-29; the three parameters are
    tensors of uninitialized memory ([mem] is what it holds) until
    [reset_parameters] fills them.  The attribute [input_dim] is not read
    by any code of the file and is not kept. *)
Definition new_Radial (mem : nat -> index -> scalar) (gen : nat -> scalar)
    (input_dim : nat) (w : world) : outcome eref * world :=
  let self := length (engines w) in
  let l := length (tensors w) in
  let w1 :=
    mkW (tensors w ++ [mkT [input_dim] (mem 0); mkT [1] (mem 1);
                       mkT [1] (mem 2)])
        (engines w ++
           [mkCR (Some l) (Some (S l)) (Some (S (S l))) (None, None) None])
        (conds w) (trace w) in
  match reset_parameters gen self w1 with
  | (Returned _, w2) => (Returned self, w2)
  | (Failed e, w2) => (Failed e, w2)
  | (ZeroDivisionError, w2) => (ZeroDivisionError, w2)
  | (AttributeError, w2) => (AttributeError, w2)
  end.




(** Two stores that differ at most in the contents of the parameter
    tensors of [o]. *)
Definition same_but_parameters (o : ConditionedRadial) (w w' : world)
  : Prop :=
  engines w' = engines w /\ conds w' = conds w /\ trace w' = trace w /\
  forall m, x0 o <> Some m -> alpha_prime o <> Some m ->
            beta_prime o <> Some m ->
            nth_error (tensors w') m = nth_error (tensors w) m.

(** The store that [condition] leaves when the network returns. *)
Definition after_condition (w : world) (self : cref) (context : loc)
    (a b g : tensor) : world :=
  let n := length (tensors w) in
  mkW (tensors w ++ [a; b; g])
      (engines w ++
         [mkCR (Some n) (Some (S n)) (Some (S (S n))) (None, None) None])
      (conds w)
      (trace w ++ [EvNN self context]).

(** [radial(input_dim)], lines 163-173. *)
Definition radial := new_Radial.

(** [conditional_radial], lines 176-196.  [DenseNN] stands for the
    constructor of the dense network of [pyro.nn], which is not in this
    file: for a context dimension, hidden dimensions and parameter
    dimensions it returns a network, or raises (an [IndexError] for an
    empty list of hidden dimensions, for one).  An exception of the
    constructor leaves [conditional_radial] before the
    [ConditionalRadial] is built. *)
Definition conditional_radial
    (DenseNN : nat -> list nat -> list nat -> result network)
    (input_dim context_dim : nat) (hidden_dims : option (list nat))
    (w : world) : result cref * world :=
  let hidden := match hidden_dims with
                | None => [input_dim * 10; input_dim * 10]
                | Some l => l
                end in
  match DenseNN context_dim hidden [input_dim; 1; 1] with
  | Ok net =>
      (Ok (length (conds w)),
       mkW (tensors w) (engines w) (conds w ++ [mkCond net]) (trace w))
  | Raise e => (Raise e, w)
  end.

End RadialInit.

(** ** A concrete [Radial] *)

Module Example3.

(** Uninitialized memory holding zeros and a generator that always
    yields 1/2. *)
Definition mem_ex : nat -> index -> R := fun _ _ => 0%R.
Definition gen_ex : nat -> R := fun _ => (/ 2)%R.

(** [t = Radial(2)] in the store [Example.w0]: object 0, with the
    parameters 5 ([x0]), 6 and 7. *)
Definition wR : world := snd (new_Radial mem_ex gen_ex 2 Example.w0).

(** [y = t(x)] for the tensor 3: the output is tensor 9. *)
Definition wR1 : world := snd (__call__ 0 3 wR).

End Example3.

(** ** A constructor of networks *)

Module Example5.

(** A constructor that indexes the hidden dimensions, as that of
    [DenseNN] does, and refuses an empty list; the network it builds
    returns the context as the center and two fixed pre-parameters. *)
Definition DenseNN_ex (context_dim : nat) (hidden_dims param_dims : list nat)
  : result (@network (IEEE.FScalar 53 1024 (ExampleF.lm_ex 53 1024))) :=
  match hidden_dims with
  | [] => Raise IndexError
  | _ :: _ =>
      Ok (fun ctx =>
            Ok (ctx, ExampleF.vec 53 1024 (ExampleF.lm_ex 53 1024) [21]%Z,
                ExampleF.vec 53 1024 (ExampleF.lm_ex 53 1024) [22]%Z))
  end.

End Example5.

(** ** A store with parameters of other shapes *)

Module Example4.

(** A center of dimension 1, an [alpha_prime] of shape [[3]], and inputs
    of dimensions 3 and 5 (tensors 3 and 4). *)
Definition wS : world :=
  mkW [Example.vec [0]%R; Example.vec [0; 0; 0]%R; Example.vec [0]%R;
       Example.vec [1; 2; 3]%R; Example.vec [1; 2; 3; 4; 5]%R]
      [mkCR (Some 0) (Some 1) (Some 2) (None, None) None] [] [].

(** [y1 = t(x1)] for the tensor 3: log-determinant 5, output 6. *)
Definition wS1 : world := snd (__call__ 0 3 wS).

(** [t(x2)] for the tensor 4, which raises in line 59. *)
Definition wS2 : world := snd (__call__ 0 4 wS1).

End Example4.

(** ** Tensor lemmas *)

Section TensorFacts.
Context {K : Scalar}.

Lemma bdim_refl n : bdim n n = Some n.
Proof. unfold bdim. now rewrite Nat.eqb_refl. Qed.

Lemma bdim_one_l n : bdim 1 n = Some n.
Proof.
  unfold bdim. destruct (1 =? n) eqn:E.
  - apply Nat.eqb_eq in E. now subst.
  - reflexivity.
Qed.

Lemma bdim_one_r n : bdim n 1 = Some n.
Proof.
  unfold bdim. destruct (n =? 1) eqn:E; reflexivity.
Qed.

Lemma bshape_rev_refl a : bshape_rev a a = Some a.
Proof.
  induction a as [|m a IH]; simpl; [reflexivity|].
  now rewrite bdim_refl, IH.
Qed.

Lemma bshape_rev_nil_r a : bshape_rev a [] = Some a.
Proof. destruct a; reflexivity. Qed.

Lemma broadcast_same sh : broadcast_shapes sh sh = Some sh.
Proof.
  unfold broadcast_shapes. rewrite bshape_rev_refl. simpl.
  now rewrite rev_involutive.
Qed.

Lemma broadcast_vec bs d : broadcast_shapes (bs ++ [d]) [d] = Some (bs ++ [d]).
Proof.
  unfold broadcast_shapes. rewrite rev_unit. simpl.
  rewrite bdim_refl, bshape_rev_nil_r. simpl.
  now rewrite rev_involutive.
Qed.

Lemma broadcast_one_l bs d : broadcast_shapes [1] (bs ++ [d]) = Some (bs ++ [d]).
Proof.
  unfold broadcast_shapes. rewrite rev_unit. simpl.
  rewrite bdim_one_l. simpl. now rewrite rev_involutive.
Qed.

Lemma broadcast_keep bs d :
  broadcast_shapes (bs ++ [1]) (bs ++ [d]) = Some (bs ++ [d]).
Proof.
  unfold broadcast_shapes. rewrite !rev_unit. simpl.
  rewrite bdim_one_l, bshape_rev_refl. simpl. now rewrite rev_involutive.
Qed.

Lemma tmap2_ok f a b sh :
  broadcast_shapes (tshape a) (tshape b) = Some sh ->
  tmap2 f a b =
  Ok (mkT sh (fun ix => f (tget a (bidx (tshape a) ix))
                          (tget b (bidx (tshape b) ix)))).
Proof. intros E. unfold tmap2. now rewrite E. Qed.

(** A valid index has the length of the shape and stays below it. *)
Lemma valid_app sh1 sh2 ix1 ix2 :
  length sh1 = length ix1 ->
  valid (sh1 ++ sh2) (ix1 ++ ix2) = valid sh1 ix1 && valid sh2 ix2.
Proof.
  revert ix1. induction sh1 as [|n sh1 IH]; intros [|i ix1] L;
    simpl in *; try discriminate; [reflexivity|].
  rewrite IH by lia. now rewrite andb_assoc.
Qed.

Lemma valid_length sh ix : valid sh ix = true -> length sh = length ix.
Proof.
  revert ix. induction sh as [|n sh IH]; intros [|i ix] V;
    simpl in *; try discriminate; [reflexivity|].
  apply andb_prop in V. f_equal. now apply IH.
Qed.

Lemma valid_snoc bs d b i :
  valid bs b = true -> i < d -> valid (bs ++ [d]) (b ++ [i]) = true.
Proof.
  intros V L. rewrite valid_app by now apply valid_length.
  rewrite V. simpl. apply Nat.ltb_lt in L. now rewrite L.
Qed.

Lemma valid_snoc_inv bs d ix :
  valid (bs ++ [d]) ix = true ->
  exists b i, ix = b ++ [i] /\ valid bs b = true /\ i < d.
Proof.
  intros V. destruct (exists_last (l := ix)) as (b & i & ->).
  - intros ->. apply valid_length in V. rewrite length_app in V.
    simpl in V. lia.
  - exists b, i. split; [reflexivity|].
    assert (L : length bs = length b).
    { apply valid_length in V. rewrite !length_app in V. simpl in V. lia. }
    rewrite valid_app in V by exact L.
    apply andb_prop in V. destruct V as [V1 V2]. simpl in V2.
    rewrite andb_true_r in V2. apply Nat.ltb_lt in V2. now split.
Qed.

(** Reading an operand at a valid index of its own shape. *)
Lemma bidx_rev_valid sh ix :
  valid sh ix = true -> bidx_rev (rev sh) (rev ix) = rev ix.
Proof.
  revert ix. induction sh as [|n sh IH] using rev_ind; intros ix V.
  - destruct ix; [reflexivity|discriminate].
  - apply valid_snoc_inv in V. destruct V as (b & i & -> & V & L).
    rewrite !rev_unit. simpl. rewrite IH by exact V.
    destruct (n =? 1) eqn:E; [|reflexivity].
    apply Nat.eqb_eq in E. f_equal. lia.
Qed.

Lemma bidx_valid sh ix : valid sh ix = true -> bidx sh ix = ix.
Proof.
  intros V. unfold bidx. rewrite bidx_rev_valid by exact V.
  apply rev_involutive.
Qed.

Lemma bidx_vec d b i : i < d -> bidx [d] (b ++ [i]) = [i].
Proof.
  intros L. unfold bidx. rewrite rev_unit. simpl.
  destruct (d =? 1) eqn:E; [|reflexivity].
  apply Nat.eqb_eq in E. f_equal. lia.
Qed.

Lemma bidx_one b i : bidx [1] (b ++ [i]) = [0].
Proof. unfold bidx. rewrite rev_unit. reflexivity. Qed.

Lemma bidx_keep bs b i :
  valid bs b = true -> bidx (bs ++ [1]) (b ++ [i]) = b ++ [0].
Proof.
  intros V. unfold bidx. rewrite !rev_unit. simpl.
  rewrite bidx_rev_valid by exact V. simpl. now rewrite rev_involutive.
Qed.

Lemma s_sum_ext d f g :
  (forall j, j < d -> f j = g j) -> s_sum d f = s_sum d g.
Proof.
  intros E. destruct d as [|k]; [reflexivity|]. simpl.
  rewrite (E 0) by lia.
  assert (G : forall l a, (forall j, In j l -> j < S k) ->
            fold_left (fun acc j => s_add acc (f j)) l a =
            fold_left (fun acc j => s_add acc (g j)) l a).
  { induction l as [|j l IH]; intros a B; simpl; [reflexivity|].
    rewrite (E j) by (apply B; now left).
    apply IH. intros j' I. apply B. now right. }
  apply G. intros j I. apply in_seq in I. lia.
Qed.

Lemma s_sum_one f : s_sum 1 f = f 0.
Proof. reflexivity. Qed.

Lemma tnorm_last_snoc a bs d :
  tshape a = bs ++ [d] ->
  tnorm_last a =
  mkT (bs ++ [1])
      (fun ix => s_sqrt (s_sum d (fun j =>
         let v := tget a (removelast ix ++ [j]) in s_mul v v))).
Proof.
  intros E. unfold tnorm_last. rewrite E.
  destruct (bs ++ [d]) eqn:F.
  - now destruct bs.
  - rewrite <- F. now rewrite removelast_last, last_last.
Qed.

Lemma tsum_last_snoc a bs d :
  tshape a = bs ++ [d] ->
  tsum_last a =
  mkT bs (fun ix => s_sum d (fun j => tget a (ix ++ [j]))).
Proof.
  intros E. unfold tsum_last. rewrite E.
  destruct (bs ++ [d]) eqn:F.
  - now destruct bs.
  - rewrite <- F. now rewrite removelast_last, last_last.
Qed.

Lemma tsize_last_snoc a bs d : tshape a = bs ++ [d] -> tsize_last a = Ok d.
Proof.
  intros E. unfold tsize_last. rewrite E.
  destruct (bs ++ [d]) eqn:F.
  - now destruct bs.
  - rewrite <- F. now rewrite last_last.
Qed.

End TensorFacts.

(** ** The tensor program against the closed forms *)

Section PureForward.
Context {K : Scalar}.
Variables (x0v apv bpv xv : tensor) (D : nat) (bs : shape).
Hypothesis Hx0 : tshape x0v = [D].
Hypothesis Hap : tshape apv = [1].
Hypothesis Hbp : tshape bpv = [1].
Hypothesis Hx : tshape xv = bs ++ [D].

Local Abbreviation lspec := (locals_spec x0v apv bpv xv D bs).

Lemma tmap2_spec f a b sh :
  broadcast_shapes (tshape a) (tshape b) = Some sh ->
  exists c, tmap2 f a b = Ok c /\ tshape c = sh /\
    forall ix, tget c ix = f (tget a (bidx (tshape a) ix))
                             (tget b (bidx (tshape b) ix)).
Proof.
  intros E. rewrite (tmap2_ok f a b sh E). eexists. split; [reflexivity|].
  split; reflexivity.
Qed.

Lemma call_locals_ok :
  exists lc,
    call_locals (Some x0v) (Some apv) (Some bpv) (Some xv) = Ok lc /\
    lspec lc.
Proof.
  unfold call_locals, tadd, tsub, tmul. simpl.
  destruct (tmap2_spec s_add (tneg (tmap s_softplus apv)) (tmap s_softplus bpv)
              ([1])) as (be & -> & Sbe & Gbe).
  { simpl. rewrite Hap, Hbp. reflexivity. }
  simpl.
  destruct (tmap2_spec s_sub xv x0v (bs ++ [D])) as (df & -> & Sdf & Gdf).
  { rewrite Hx, Hx0. apply broadcast_vec. }
  simpl.
  assert (Gdf' : forall b i, valid bs b = true -> i < D ->
            tget df (b ++ [i]) = s_sub (tget xv (b ++ [i])) (tget x0v [i])).
  { intros b i V L. rewrite Gdf, Hx, Hx0.
    rewrite bidx_valid by now apply valid_snoc.
    now rewrite bidx_vec. }
  rewrite (tnorm_last_snoc df bs D Sdf).
  set (rr := mkT (bs ++ [1]) _).
  assert (Grr : forall b, valid bs b = true ->
            tget rr (b ++ [0]) = rad_r x0v xv D b).
  { intros b V. unfold rr, rad_r. simpl. rewrite removelast_last.
    f_equal. apply s_sum_ext. intros j L. simpl. now rewrite Gdf'. }
  assert (Srr : tshape rr = bs ++ [1]) by reflexivity.
  clearbody rr.
  destruct (tmap2_spec s_add (tmap s_softplus apv) rr (bs ++ [1]))
    as (ar & -> & Sar & Gar).
  { simpl. rewrite Hap, Srr. apply broadcast_one_l. }
  simpl.
  assert (Gh : forall b, valid bs b = true ->
            tget (tmap s_recip ar) (b ++ [0]) = rad_h x0v apv xv D b).
  { intros b V. simpl. rewrite Gar. simpl. rewrite Hap, Srr, bidx_one.
    rewrite bidx_keep by exact V. rewrite Grr by exact V. reflexivity. }
  destruct (tmap2_spec s_mul be (tmap s_recip ar) (bs ++ [1]))
    as (bh & -> & Sbh & Gbh).
  { simpl. rewrite Sbe, Sar. apply broadcast_one_l. }
  simpl.
  assert (Gbe0 : tget be [0] = rad_beta apv bpv).
  { rewrite Gbe. simpl. rewrite Hap, Hbp. reflexivity. }
  eexists. split; [reflexivity|].
  unfold locals_spec; simpl.
  repeat split; try assumption.
  - intros b V. change (tget (tmap s_recip ar) (b ++ [0]))
      with (s_recip (tget ar (b ++ [0]))) in Gh.
    unfold rad_h'. now rewrite <- !Gh.
  - intros b V. rewrite Gbh, Sbe, bidx_one.
    change (tshape (tmap s_recip ar)) with (tshape ar). rewrite Sar.
    rewrite bidx_keep by exact V. rewrite Gbe0. f_equal. now apply Gh.
Qed.

Lemma call_logdet_ok lc :
  lspec lc ->
  exists ld,
    call_logdet (Some x0v) lc = Ok ld /\ tshape ld = bs /\
    forall b, valid bs b = true ->
      tget ld b = rad_logdet x0v apv bpv xv D b.
Proof.
  intros ((Sa & Ga) & (Sb & Gb) & (Sd & Gd) & (Sr & Gr) & (Sh & Gh)
            & (Sp & Gp) & (Sbh & Gbh)).
  unfold call_logdet, tadd, tmul. simpl.
  rewrite (tsize_last_snoc x0v [] D Hx0). simpl.
  destruct (tmap2_spec s_mul (beta lc) (h_prime lc) (bs ++ [1]))
    as (bhp & -> & Sbhp & Gbhp).
  { rewrite Sb, Sp. apply broadcast_one_l. }
  simpl.
  destruct (tmap2_spec s_mul bhp (r lc) (bs ++ [1]))
    as (bhpr & -> & Sbhpr & Gbhpr).
  { rewrite Sbhp, Sr. apply broadcast_same. }
  simpl.
  destruct (tmap2_spec s_add (beta_h lc) bhpr (bs ++ [1]))
    as (s & -> & Ss & Gs).
  { rewrite Sbh, Sbhpr. apply broadcast_same. }
  simpl.
  set (t1 := tmap (s_mul (s_of_Z (Z.of_nat D - 1))) (tmap s_log1p (beta_h lc))).
  destruct (tmap2_spec s_add t1 (tmap s_log1p s) (bs ++ [1]))
    as (t & -> & St & Gt).
  { simpl. rewrite Sbh, Ss. apply broadcast_same. }
  simpl.
  rewrite (tsum_last_snoc t bs 1 St).
  eexists. split; [reflexivity|]. split; [reflexivity|].
  intros b V. simpl.
  assert (V0 : valid (bs ++ [1]) (b ++ [0]) = true)
    by (apply valid_snoc; [exact V|lia]).
  rewrite Gt. unfold t1. simpl. rewrite Sbh, Ss.
  rewrite !bidx_valid by exact V0.
  rewrite Gs, Sbh, Sbhpr. rewrite !bidx_valid by exact V0.
  rewrite Gbhpr, Sbhp, Sr. rewrite !bidx_valid by exact V0.
  rewrite Gbhp, Sb, Sp, bidx_one. rewrite !bidx_valid by exact V0.
  rewrite Gbh, Gb, Gp, Gr by exact V.
  reflexivity.
Qed.

Lemma call_output_ok lc :
  lspec lc ->
  exists yv,
    call_output (Some xv) lc = Ok yv /\ tshape yv = bs ++ [D] /\
    forall b i, valid bs b = true -> i < D ->
      tget yv (b ++ [i]) = rad_y x0v apv bpv xv D b i.
Proof.
  intros ((Sa & Ga) & (Sb & Gb) & (Sd & Gd) & (Sr & Gr) & (Sh & Gh)
            & (Sp & Gp) & (Sbh & Gbh)).
  unfold call_output, tadd, tmul. simpl.
  destruct (tmap2_spec s_mul (beta_h lc) (diff lc) (bs ++ [D]))
    as (bd & -> & Sbd & Gbd).
  { rewrite Sbh, Sd. apply broadcast_keep. }
  simpl.
  destruct (tmap2_spec s_add xv bd (bs ++ [D])) as (yv & -> & Sy & Gy).
  { rewrite Hx, Sbd. apply broadcast_same. }
  exists yv. split; [reflexivity|]. split; [exact Sy|].
  intros b i V L.
  assert (Vi : valid (bs ++ [D]) (b ++ [i]) = true) by now apply valid_snoc.
  rewrite Gy, Hx, Sbd. rewrite !bidx_valid by exact Vi.
  rewrite Gbd, Sbh, Sd. rewrite bidx_keep by exact V.
  rewrite bidx_valid by exact Vi.
  rewrite Gbh, Gd by assumption.
  reflexivity.
Qed.

End PureForward.

(** ** The store: primitive steps *)

Section StoreFacts.
Context {K : Scalar}.

Lemma nth_error_upd_same {A} (l : list A) n a :
  n < length l -> nth_error (upd l n a) n = Some a.
Proof.
  revert n. induction l as [|b l IH]; intros [|n] L; simpl in *;
    try lia; [reflexivity|]. apply IH. lia.
Qed.

Lemma nth_error_upd_other {A} (l : list A) n m a :
  m <> n -> nth_error (upd l n a) m = nth_error l m.
Proof.
  revert n m. induction l as [|b l IH]; intros [|n] [|m] N; simpl;
    try reflexivity; try congruence. apply IH. congruence.
Qed.

Lemma length_upd {A} (l : list A) n a : length (upd l n a) = length l.
Proof.
  revert n. induction l as [|b l IH]; intros [|n]; simpl; try reflexivity.
  now rewrite IH.
Qed.

Lemma nth_error_app_some {A} (l l' : list A) n v :
  nth_error l n = Some v -> nth_error (l ++ l') n = Some v.
Proof.
  intros E. rewrite nth_error_app1; [exact E|].
  apply nth_error_Some. congruence.
Qed.

Lemma field_value_app w a v new e c t :
  field_value w a = Some v ->
  field_value (mkW (tensors w ++ new) e c t) a = Some v.
Proof.
  destruct a as [l|]; simpl; [|discriminate]. apply nth_error_app_some.
Qed.

Lemma same_params_refl o : same_params o o.
Proof. repeat split. Qed.

Lemma same_params_trans o1 o2 o3 :
  same_params o1 o2 -> same_params o2 o3 -> same_params o1 o3.
Proof. unfold same_params. intuition congruence. Qed.

Lemma frame_refl self w : frame self w w.
Proof.
  repeat split; try reflexivity.
  - exists []. now rewrite app_nil_r.
  - intros o E. exists o. split; [exact E|apply same_params_refl].
Qed.

Lemma frame_trans self w1 w2 w3 :
  frame self w1 w2 -> frame self w2 w3 -> frame self w1 w3.
Proof.
  intros ((n1 & T1) & C1 & L1 & O1 & S1) ((n2 & T2) & C2 & L2 & O2 & S2).
  repeat split.
  - exists (n1 ++ n2). now rewrite T2, T1, app_assoc.
  - congruence.
  - congruence.
  - intros e N. now rewrite O2, O1.
  - intros o E. destruct (S1 o E) as (o' & E' & P1).
    destruct (S2 o' E') as (o'' & E'' & P2).
    exists o''. split; [exact E''|]. eapply same_params_trans; eassumption.
Qed.

(** Framing is closed under sequencing. *)
Lemma frame_bind {A B} self (m : M A) (k : A -> M B) :
  (forall w, frame self w (snd (m w))) ->
  (forall a w, frame self w (snd (k a w))) ->
  forall w, frame self w (snd (bind m k w)).
Proof.
  intros Fm Fk w. unfold bind. specialize (Fm w).
  destruct (m w) as [[a|e] w1]; simpl in *; [|exact Fm].
  eapply frame_trans; [exact Fm|apply Fk].
Qed.

Lemma frame_ret {A} self (a : A) w : frame self w (snd (ret a w)).
Proof. apply frame_refl. Qed.

Lemma frame_lift {A} self (x : result A) w : frame self w (snd (lift x w)).
Proof. apply frame_refl. Qed.

Lemma frame_value_of self a w : frame self w (snd (value_of a w)).
Proof. apply frame_refl. Qed.

Lemma frame_read_engine self e w : frame self w (snd (read_engine e w)).
Proof.
  unfold read_engine. destruct (nth_error (engines w) e); apply frame_refl.
Qed.

Lemma frame_emit self ev w : frame self w (snd (emit ev w)).
Proof.
  repeat split; simpl; try reflexivity.
  - exists []. now rewrite app_nil_r.
  - intros o E. exists o. split; [exact E|apply same_params_refl].
Qed.

Lemma frame_alloc_tensor self v w : frame self w (snd (alloc_tensor v w)).
Proof.
  repeat split; simpl; try reflexivity.
  - now exists [v].
  - intros o E. exists o. split; [exact E|apply same_params_refl].
Qed.

(** Writing back an object whose parameters are those it had. *)
Lemma frame_write_engine self o' w :
  (forall o, nth_error (engines w) self = Some o -> same_params o o') ->
  frame self w (snd (write_engine self o' w)).
Proof.
  intros P. repeat split; simpl.
  - exists []. now rewrite app_nil_r.
  - apply length_upd.
  - intros e N. now apply nth_error_upd_other.
  - intros o E. exists o'. split; [|now apply P].
    apply nth_error_upd_same. apply nth_error_Some. congruence.
Qed.

End StoreFacts.

(** ** Framing of the methods *)

Section MethodFrames.
Context {K : Scalar}.

Lemma frame_bind_at {A B} self (m : M A) (k : A -> M B) w :
  frame self w (snd (m w)) ->
  (forall a w', m w = (Ok a, w') -> frame self w' (snd (k a w'))) ->
  frame self w (snd (bind m k w)).
Proof.
  intros Fm Fk. unfold bind.
  destruct (m w) as [[a|e] w1] eqn:E; simpl in *; [|exact Fm].
  eapply frame_trans; [exact Fm|now apply Fk].
Qed.

Lemma read_engine_ok self w o w' :
  read_engine self w = (Ok o, w') ->
  w' = w /\ nth_error (engines w) self = Some o.
Proof.
  unfold read_engine. destruct (nth_error (engines w) self);
    intros E; inversion E; subst; now split.
Qed.

Ltac frame_prim :=
  first [ apply frame_ret | apply frame_lift | apply frame_value_of
        | apply frame_read_engine | apply frame_emit
        | apply frame_alloc_tensor ].

Ltac frame_seq :=
  repeat (apply frame_bind_at; [frame_prim|]; intros ? ? ?).

Lemma frame_write_back self o1 c l w :
  nth_error (engines w) self = Some o1 ->
  frame self w
    (snd (write_engine self
            (mkCR (x0 o1) (alpha_prime o1) (beta_prime o1) c l) w)).
Proof.
  intros E. apply frame_write_engine. intros o E'.
  assert (o = o1) by congruence. subst. repeat split.
Qed.

Lemma frame__call self x w : frame self w (snd (_call self x w)).
Proof.
  unfold _call. frame_seq.
  match goal with H : read_engine _ _ = _ |- _ =>
    apply read_engine_ok in H; destruct H as [-> E1] end.
  apply frame_bind_at; [now apply frame_write_back|]. intros ? ? ?.
  frame_seq. frame_prim.
Qed.

Lemma frame___call__ self x w : frame self w (snd (__call__ self x w)).
Proof.
  unfold __call__. apply frame_bind_at; [frame_prim|]. intros o w' _.
  destruct (_cached_x_y o) as [x_old y_old].
  destruct (is_same x x_old); [frame_prim|].
  apply frame_bind_at; [apply frame__call|]. intros y w1 _.
  apply frame_bind_at; [frame_prim|]. intros o1 w2 E.
  apply read_engine_ok in E. destruct E as [-> E].
  apply frame_bind_at; [now apply frame_write_back|]. intros ? ? ?.
  frame_prim.
Qed.

Lemma frame_log_abs_det_jacobian self x y w :
  frame self w (snd (log_abs_det_jacobian self x y w)).
Proof.
  unfold log_abs_det_jacobian.
  apply frame_bind_at; [frame_prim|]. intros o w' _.
  destruct (_cached_x_y o) as [x_old y_old].
  apply frame_bind_at.
  - destruct (negb (is_same x x_old) || negb (is_same y y_old));
      [|frame_prim].
    apply frame_bind_at; [apply frame___call__|]. intros. frame_prim.
  - intros _ w1 _. frame_seq. frame_prim.
Qed.

End MethodFrames.

(** ** What the methods compute *)

Section MethodRuns.
Context {K : Scalar}.

Lemma upd_upd {A} (l : list A) n a b : upd (upd l n a) n b = upd l n b.
Proof.
  revert n. induction l as [|c l IH]; intros [|n]; simpl; try reflexivity.
  now rewrite IH.
Qed.

Section Run.
Variables (w : world) (self : eref) (x : loc) (o : ConditionedRadial).
Variables (lc : locals) (ld yv : tensor).
Hypothesis Ho : nth_error (engines w) self = Some o.
Hypothesis Hlc :
  call_locals (field_value w (x0 o)) (field_value w (alpha_prime o))
              (field_value w (beta_prime o)) (field_value w (Some x)) = Ok lc.
Hypothesis Hld : call_logdet (field_value w (x0 o)) lc = Ok ld.
Hypothesis Hyv : call_output (field_value w (Some x)) lc = Ok yv.

Lemma _call_run :
  _call self x w = (Ok (S (length (tensors w))), after_call w self x o ld yv).
Proof.
  unfold _call, bind, read_engine, emit, value_of, lift, alloc_tensor,
    write_engine, after_call.
  rewrite Ho. cbn [tensors engines conds trace].
  change (field_value (mkW (tensors w) (engines w) (conds w)
                           (trace w ++ [EvCall self x])))
    with (field_value w).
  rewrite Hlc, Hld, Ho, Hyv. cbn [tensors engines conds trace].
  rewrite length_app, Nat.add_1_r, <- app_assoc. reflexivity.
Qed.

Lemma __call___miss :
  is_same x (fst (_cached_x_y o)) = false ->
  __call__ self x w =
  (Ok (Some (S (length (tensors w)))), after_forward w self x o ld yv).
Proof.
  intros Hm. unfold __call__. unfold bind at 1. unfold read_engine at 1.
  rewrite Ho. destruct (_cached_x_y o) as [x_old y_old] eqn:Ec.
  simpl in Hm. rewrite Hm.
  unfold bind at 1. rewrite _call_run.
  unfold bind, read_engine, write_engine, ret, after_call, after_forward.
  simpl. rewrite nth_error_upd_same by (apply nth_error_Some; congruence).
  simpl. now rewrite upd_upd.
Qed.

End Run.

Lemma __call___hit w self x o :
  nth_error (engines w) self = Some o ->
  is_same x (fst (_cached_x_y o)) = true ->
  __call__ self x w = (Ok (snd (_cached_x_y o)), w).
Proof.
  intros Ho Hh. unfold __call__, bind, read_engine. rewrite Ho.
  destruct (_cached_x_y o) as [x_old y_old]. simpl in *. now rewrite Hh.
Qed.

(** [log_abs_det_jacobian] when [x] is the cached input: [_call] does not
    run, whatever [y] is. *)
Lemma log_abs_det_jacobian_same_x w self x y o :
  nth_error (engines w) self = Some o ->
  is_same x (fst (_cached_x_y o)) = true ->
  log_abs_det_jacobian self x y w = (Ok (_cached_logDetJ o), w).
Proof.
  intros Ho Hh. unfold log_abs_det_jacobian.
  unfold bind at 1. unfold read_engine at 1. rewrite Ho.
  destruct (_cached_x_y o) as [x_old y_old] eqn:Ec. simpl in Hh.
  rewrite Hh. simpl.
  destruct (negb (is_same y y_old)).
  - unfold bind at 1. unfold bind at 1.
    rewrite (__call___hit w self x o Ho) by (rewrite Ec; exact Hh).
    unfold ret, bind, read_engine. now rewrite Ho.
  - unfold bind, ret, read_engine. now rewrite Ho.
Qed.

(** [log_abs_det_jacobian] when [x] is not the cached input. *)
Lemma log_abs_det_jacobian_other_x w self x y o lc ld yv :
  nth_error (engines w) self = Some o ->
  call_locals (field_value w (x0 o)) (field_value w (alpha_prime o))
              (field_value w (beta_prime o)) (field_value w (Some x)) = Ok lc ->
  call_logdet (field_value w (x0 o)) lc = Ok ld ->
  call_output (field_value w (Some x)) lc = Ok yv ->
  is_same x (fst (_cached_x_y o)) = false ->
  log_abs_det_jacobian self x y w =
  (Ok (Some (length (tensors w))), after_forward w self x o ld yv).
Proof.
  intros Ho Hlc Hld Hyv Hm. unfold log_abs_det_jacobian.
  unfold bind at 1. unfold read_engine at 1. rewrite Ho.
  destruct (_cached_x_y o) as [x_old y_old] eqn:Ec. simpl in Hm.
  rewrite Hm. simpl.
  unfold bind at 1. unfold bind at 1.
  rewrite (__call___miss w self x o lc ld yv Ho Hlc Hld Hyv) by (rewrite Ec; exact Hm).
  unfold ret, bind, read_engine, after_forward. simpl.
  now rewrite nth_error_upd_same by (apply nth_error_Some; congruence).
Qed.

End MethodRuns.

(** ** The forward pass on parameters of the shapes of the data model *)

Section RadialRuns.
Context {K : Scalar}.
Variables (w : world) (self : eref) (x0v apv bpv : tensor) (D : nat).
Hypothesis Heng : radial_engine w self x0v apv bpv.
Hypothesis Hsh : radial_shapes D x0v apv bpv.

(** The three results of lines 47-59 for an input of shape [bs ++ [D]]. *)
Lemma radial_values x xv bs o :
  nth_error (engines w) self = Some o ->
  nth_error (tensors w) x = Some xv ->
  tshape xv = bs ++ [D] ->
  exists lc ld yv,
    call_locals (field_value w (x0 o)) (field_value w (alpha_prime o))
      (field_value w (beta_prime o)) (field_value w (Some x)) = Ok lc /\
    call_logdet (field_value w (x0 o)) lc = Ok ld /\
    call_output (field_value w (Some x)) lc = Ok yv /\
    (tshape yv = bs ++ [D] /\
     forall b i, valid bs b = true -> i < D ->
       tget yv (b ++ [i]) = rad_y x0v apv bpv xv D b i) /\
    (tshape ld = bs /\
     forall b, valid bs b = true ->
       tget ld b = rad_logdet x0v apv bpv xv D b).
Proof.
  intros Ho Hx Hs.
  destruct Heng as (o' & Ho' & E0 & Ea & Eb).
  assert (o' = o) by congruence. subst o'.
  destruct Hsh as (S0 & Sa & Sb).
  destruct (call_locals_ok x0v apv bpv xv D bs S0 Sa Sb Hs) as (lc & Hlc & Spec).
  destruct (call_logdet_ok x0v apv bpv xv D bs S0 lc Spec) as (ld & Hld & Sld).
  destruct (call_output_ok x0v apv bpv xv D bs Hs lc Spec) as (yv & Hyv & Syv).
  exists lc, ld, yv. simpl. rewrite E0, Ea, Eb, Hx. auto.
Qed.

(** A forward pass keeps the object a radial engine with the same
    parameter values. *)
Lemma radial_engine_frame w' :
  frame self w w' -> radial_engine w' self x0v apv bpv.
Proof.
  intros ((new & T) & _ & _ & _ & S).
  destruct Heng as (o & Ho & E0 & Ea & Eb).
  destruct (S o Ho) as (o' & Ho' & P0 & Pa & Pb).
  exists o'. split; [exact Ho'|].
  rewrite P0, Pa, Pb. destruct w' as [t' e' c' tr']. simpl in *. subst t'.
  repeat split; now apply field_value_app.
Qed.

(** A consistent cache stays consistent over a forward pass. *)
Lemma cache_consistent_forward x xv bs :
  nth_error (tensors w) x = Some xv ->
  tshape xv = bs ++ [D] ->
  cache_consistent w self ->
  cache_consistent (snd (__call__ self x w)) self.
Proof.
  intros Hx Hs Hc.
  destruct Heng as (o & Ho & E0 & Ea & Eb).
  destruct (is_same x (fst (_cached_x_y o))) eqn:Hit.
  - now rewrite (__call___hit w self x o Ho Hit).
  - destruct (radial_values x xv bs o Ho Hx Hs)
      as (lc & ld & yv & Hlc & Hld & Hyv & _).
    rewrite (__call___miss w self x o lc ld yv Ho Hlc Hld Hyv Hit). simpl.
    intros o' lx Ho' Hlx. unfold after_forward in *. simpl in *.
    rewrite nth_error_upd_same in Ho'
      by (apply nth_error_Some; congruence).
    inversion Ho'; subst o'; clear Ho'. simpl in *.
    inversion Hlx; subst lx; clear Hlx.
    exists lc, ld, yv, (length (tensors w)), (S (length (tensors w))).
    rewrite (field_value_app w (x0 o) x0v) by exact E0.
    rewrite (field_value_app w (alpha_prime o) apv) by exact Ea.
    rewrite (field_value_app w (beta_prime o) bpv) by exact Eb.
    rewrite (nth_error_app_some _ _ _ _ Hx).
    simpl in Hlc, Hyv. rewrite E0, Ea, Eb, Hx in Hlc.
    rewrite E0 in Hld. rewrite Hx in Hyv.
    repeat split; try assumption.
    + rewrite nth_error_app2 by lia. now rewrite Nat.sub_diag.
    + rewrite nth_error_app2 by lia.
      now replace (S (length (tensors w)) - length (tensors w)) with 1 by lia.
Qed.

End RadialRuns.

(** ** The values of the forward pass *)

Section ForwardValues.
Context {K : Scalar}.
Variables (x0v apv bpv : tensor) (D : nat).
Hypothesis Hsh : radial_shapes D x0v apv bpv.

Lemma forward_value_closed_form xv bs :
  tshape xv = bs ++ [D] ->
  exists yv, forward_value x0v apv bpv xv = Ok yv /\
    tshape yv = bs ++ [D] /\
    forall b i, valid bs b = true -> i < D ->
      tget yv (b ++ [i]) = rad_y x0v apv bpv xv D b i.
Proof.
  intros Hs. destruct Hsh as (S0 & Sa & Sb).
  destruct (call_locals_ok x0v apv bpv xv D bs S0 Sa Sb Hs) as (lc & Hlc & Spec).
  destruct (call_logdet_ok x0v apv bpv xv D bs S0 lc Spec) as (ld & Hld & _).
  destruct (call_output_ok x0v apv bpv xv D bs Hs lc Spec) as (yv & Hyv & Syv).
  exists yv. unfold forward_value. rewrite Hlc. simpl. rewrite Hld. simpl.
  now split.
Qed.

Lemma logdet_value_closed_form xv bs :
  tshape xv = bs ++ [D] ->
  exists ld, logdet_value x0v apv bpv xv = Ok ld /\
    tshape ld = bs /\
    forall b, valid bs b = true ->
      tget ld b = rad_logdet x0v apv bpv xv D b.
Proof.
  intros Hs. destruct Hsh as (S0 & Sa & Sb).
  destruct (call_locals_ok x0v apv bpv xv D bs S0 Sa Sb Hs) as (lc & Hlc & Spec).
  destruct (call_logdet_ok x0v apv bpv xv D bs S0 lc Spec) as (ld & Hld & Sld).
  exists ld. unfold logdet_value. rewrite Hlc. simpl. now split.
Qed.

(** A consistent cache holds the values of its input. *)
Lemma cache_consistent_values w self o lx xv bs :
  radial_engine w self x0v apv bpv ->
  cache_consistent w self ->
  nth_error (engines w) self = Some o ->
  fst (_cached_x_y o) = Some lx ->
  nth_error (tensors w) lx = Some xv ->
  tshape xv = bs ++ [D] ->
  exists l ly ld yv,
    _cached_logDetJ o = Some l /\ snd (_cached_x_y o) = Some ly /\
    nth_error (tensors w) l = Some ld /\ nth_error (tensors w) ly = Some yv /\
    logdet_value x0v apv bpv xv = Ok ld /\
    forward_value x0v apv bpv xv = Ok yv.
Proof.
  intros (o' & Ho' & E0 & Ea & Eb) Hc Ho Hlx Hx Hs.
  assert (o' = o) by congruence. subst o'.
  destruct (Hc o lx Ho Hlx)
    as (lc & ld & yv & l & ly & Hlc & Hld & Hyv & Hl & Tl & Hly & Tly).
  exists l, ly, ld, yv. simpl in Hlc, Hyv.
  rewrite E0, Ea, Eb, Hx in Hlc. rewrite E0 in Hld. rewrite Hx in Hyv.
  unfold logdet_value, forward_value. rewrite Hlc. simpl. rewrite Hld.
  simpl. auto 10.
Qed.

(** The central fact about the public forward map: in a consistent
    state it returns a tensor holding [forward_value] of its input,
    leaves a consistent state and only frames the store. *)
Lemma forward_returns w self x xv bs :
  radial_engine w self x0v apv bpv ->
  cache_consistent w self ->
  nth_error (tensors w) x = Some xv ->
  tshape xv = bs ++ [D] ->
  exists y yv w',
    __call__ self x w = (Ok (Some y), w') /\
    nth_error (tensors w') y = Some yv /\
    forward_value x0v apv bpv xv = Ok yv /\
    frame self w w' /\ cache_consistent w' self.
Proof.
  intros Heng Hc Hx Hs.
  pose proof (frame___call__ self x w) as Hf.
  pose proof (cache_consistent_forward w self x0v apv bpv D Heng Hsh x xv bs
                Hx Hs Hc) as Hc'.
  destruct Heng as (o & Ho & E0 & Ea & Eb).
  destruct (is_same x (fst (_cached_x_y o))) eqn:Hit.
  - rewrite (__call___hit w self x o Ho Hit) in *. simpl in *.
    assert (Hlx : fst (_cached_x_y o) = Some x).
    { destruct (fst (_cached_x_y o)) as [l|]; [|discriminate].
      simpl in Hit. apply Nat.eqb_eq in Hit. now subst. }
    destruct (cache_consistent_values w self o x xv bs) as
      (l & ly & ld & yv & _ & Hly & _ & Tly & _ & Hfv); auto.
    { exists o. auto. }
    exists ly, yv, w. rewrite Hly. auto.
  - destruct (radial_values w self x0v apv bpv D) with (x := x) (xv := xv)
      (bs := bs) (o := o) as (lc & ld & yv & Hlc & Hld & Hyv & _); auto.
    { exists o. auto. }
    rewrite (__call___miss w self x o lc ld yv Ho Hlc Hld Hyv Hit) in *.
    simpl in *.
    exists (S (length (tensors w))), yv, (after_forward w self x o ld yv).
    split; [reflexivity|]. split.
    { unfold after_forward. cbn [tensors]. rewrite nth_error_app2 by lia.
      now replace (S (length (tensors w)) - length (tensors w)) with 1 by lia. }
    split; [|now split].
    rewrite E0, Ea, Eb, Hx in Hlc. rewrite E0 in Hld. rewrite Hx in Hyv.
    unfold forward_value. rewrite Hlc. simpl. rewrite Hld. simpl. exact Hyv.
Qed.

(** Likewise for [log_abs_det_jacobian]: whether it hits or misses, it
    returns a tensor holding [logdet_value] of the value of [x]. *)
Lemma log_abs_det_jacobian_returns w self x y xv bs :
  radial_engine w self x0v apv bpv ->
  cache_consistent w self ->
  nth_error (tensors w) x = Some xv ->
  tshape xv = bs ++ [D] ->
  exists l ld w',
    log_abs_det_jacobian self x y w = (Ok (Some l), w') /\
    nth_error (tensors w') l = Some ld /\
    logdet_value x0v apv bpv xv = Ok ld /\
    frame self w w' /\ cache_consistent w' self.
Proof.
  intros Heng Hc Hx Hs.
  pose proof (frame_log_abs_det_jacobian self x y w) as Hf.
  pose proof (cache_consistent_forward w self x0v apv bpv D Heng Hsh x xv bs
                Hx Hs Hc) as Hc'.
  pose proof Heng as (o & Ho & E0 & Ea & Eb).
  destruct (is_same x (fst (_cached_x_y o))) eqn:Hit.
  - rewrite (log_abs_det_jacobian_same_x w self x y o Ho Hit) in *.
    rewrite (__call___hit w self x o Ho Hit) in Hc'.
    assert (Hlx : fst (_cached_x_y o) = Some x).
    { destruct (fst (_cached_x_y o)) as [l|]; [|discriminate].
      simpl in Hit. apply Nat.eqb_eq in Hit. now subst. }
    destruct (cache_consistent_values w self o x xv bs Heng Hc Ho Hlx Hx Hs)
      as (l & ly & ld & yv & Hl & _ & Tl & _ & Hv & _).
    exists l, ld, w. rewrite Hl. auto.
  - destruct (radial_values w self x0v apv bpv D Heng Hsh x xv bs o Ho Hx Hs)
      as (lc & ld & yv & Hlc & Hld & Hyv & _).
    rewrite (log_abs_det_jacobian_other_x w self x y o lc ld yv
               Ho Hlc Hld Hyv Hit) in *.
    rewrite (__call___miss w self x o lc ld yv Ho Hlc Hld Hyv Hit) in Hc'.
    exists (length (tensors w)), ld, (after_forward w self x o ld yv).
    split; [reflexivity|]. split.
    { unfold after_forward. cbn [tensors]. rewrite nth_error_app2 by lia.
      now rewrite Nat.sub_diag. }
    split; [|now split].
    simpl in Hlc. rewrite E0, Ea, Eb, Hx in Hlc. rewrite E0 in Hld.
    unfold logdet_value. rewrite Hlc. exact Hld.
Qed.

End ForwardValues.

(** ** Reachable states have a consistent cache *)

Section Reachable.
Context {K : Scalar}.

(** A transform object that has just been constructed. *)
Lemma cache_consistent_new w a b g :
  cache_consistent (snd (new_ConditionedRadial a b g w)) (length (engines w)).
Proof.
  intros o lx Ho Hlx. simpl in Ho.
  rewrite nth_error_app2, Nat.sub_diag in Ho by lia.
  inversion Ho; subst o. discriminate.
Qed.

(** Allocating tensors and other objects keeps the cache of an object
    with tensor parameters consistent. *)
Lemma cache_consistent_grow w self x0v apv bpv newt newe c t :
  radial_engine w self x0v apv bpv ->
  cache_consistent w self ->
  cache_consistent (mkW (tensors w ++ newt) (engines w ++ newe) c t) self.
Proof.
  intros (o & Ho & E0 & Ea & Eb) Hc o' lx Ho' Hlx. cbn [engines] in Ho'.
  rewrite (nth_error_app_some _ newe _ _ Ho) in Ho'.
  inversion Ho'; subst o'; clear Ho'.
  destruct (Hc o lx Ho Hlx)
    as (lc & ld & yv & l & ly & Hlc & Hld & Hyv & Hl & Tl & Hly & Tly).
  exists lc, ld, yv, l, ly.
  assert (Ex : exists xv, field_value w (Some lx) = Some xv).
  { destruct (field_value w (Some lx)) as [xv|] eqn:Ex; [now exists xv|].
    rewrite E0, Ea, Eb in Hlc. unfold call_locals in Hlc. simpl in Hlc.
    destruct (tadd _ _); simpl in Hlc; discriminate. }
  destruct Ex as (xv & Ex).
  rewrite (field_value_app w (x0 o) x0v) by exact E0.
  rewrite (field_value_app w (alpha_prime o) apv) by exact Ea.
  rewrite (field_value_app w (beta_prime o) bpv) by exact Eb.
  rewrite (field_value_app w (Some lx) xv) by exact Ex.
  rewrite <- E0, <- Ea, <- Eb, <- Ex. cbn [tensors].
  repeat split; try assumption; now apply nth_error_app_some.
Qed.

End Reachable.

(** ** The forward map *)

Section ExampleFacts.

Lemma example_engine :
  radial_engine Example.w1 0 Example.x0_ex Example.ap_ex Example.bp_ex.
Proof. eexists. repeat split; reflexivity. Qed.

Lemma example_shapes :
  radial_shapes 2 Example.x0_ex Example.ap_ex Example.bp_ex.
Proof. repeat split; reflexivity. Qed.

Lemma example_consistent : cache_consistent Example.w1 0.
Proof.
  intros o lx Ho Hlx. inversion Ho; subst o. discriminate.
Qed.

End ExampleFacts.

(** The output of [_call], and of [__call__] in a consistent state, in
    terms of [rad_y]. *)
Lemma forward_rad_y {K : Scalar} (w : world) (self : eref) (x : loc)
    (x0v apv bpv xv : tensor) (D : nat) (bs : shape) :
  radial_engine w self x0v apv bpv ->
  radial_shapes D x0v apv bpv ->
  nth_error (tensors w) x = Some xv ->
  tshape xv = bs ++ [D] ->
  let closed yv :=
    tshape yv = bs ++ [D] /\
    forall b i, valid bs b = true -> i < D ->
      tget yv (b ++ [i]) = rad_y x0v apv bpv xv D b i in
  (exists y yv w',
     _call self x w = (Ok y, w') /\
     nth_error (tensors w') y = Some yv /\ closed yv) /\
  (cache_consistent w self ->
   exists y yv w',
     __call__ self x w = (Ok (Some y), w') /\
     nth_error (tensors w') y = Some yv /\ closed yv).
Proof.
  intros Heng Hsh Hx Hs closed. split.
  - destruct Heng as (o & Ho & E).
    destruct (radial_values w self x0v apv bpv D) with (x := x) (xv := xv)
      (bs := bs) (o := o) as (lc & ld & yv & Hlc & Hld & Hyv & Sy & _); auto.
    { exists o. auto. }
    rewrite (_call_run w self x o lc ld yv Ho Hlc Hld Hyv).
    exists (S (length (tensors w))), yv, (after_call w self x o ld yv).
    split; [reflexivity|]. split; [|exact Sy].
    unfold after_call. cbn [tensors]. rewrite nth_error_app2 by lia.
    now replace (S (length (tensors w)) - length (tensors w)) with 1 by lia.
  - intros Hc.
    destruct (forward_returns x0v apv bpv D Hsh w self x xv bs Heng Hc Hx Hs)
      as (y & yv & w' & E & T & Hfv & _).
    destruct (forward_value_closed_form x0v apv bpv D Hsh xv bs Hs)
      as (yv' & Hfv' & Sy).
    assert (yv' = yv) by congruence. subst yv'.
    exists y, yv, w'. auto.
Qed.


(** C1: for an input [x] of shape [bs ++ [D]], a center of shape [[D]] and
    pre-parameters of shape [[1]], the forward map returns a tensor [y] of
    the shape of [x] with
    [y = x + (beta h) (x - x0)] in every component [i] of every batch
    element [b], where [alpha = softplus(alpha_prime)],
    [beta = -alpha + softplus(beta_prime)], [r] is the 2-norm of [x - x0]
    over the last dimension and [h = 1 / (alpha + r)].  This holds for the
    body [_call] in every state, and for the cached [__call__] in every
    state whose cache is consistent; and for every implementation of the
    scalar operations. *)
Theorem forward_closed_form {K : Scalar} (w : world) (self : eref) (x : loc)
    (x0v apv bpv xv : tensor) (D : nat) (bs : shape) :
  radial_engine w self x0v apv bpv ->
  radial_shapes D x0v apv bpv ->
  nth_error (tensors w) x = Some xv ->
  tshape xv = bs ++ [D] ->
  let alpha := s_softplus (tget apv [0]) in
  let beta := s_add (s_neg alpha) (s_softplus (tget bpv [0])) in
  let r b := s_sqrt (s_sum D (fun j =>
               let v := s_sub (tget xv (b ++ [j])) (tget x0v [j]) in
               s_mul v v)) in
  let h b := s_recip (s_add alpha (r b)) in
  let closed yv :=
    tshape yv = bs ++ [D] /\
    forall b i, valid bs b = true -> i < D ->
      tget yv (b ++ [i]) =
      s_add (tget xv (b ++ [i]))
            (s_mul (s_mul beta (h b))
                   (s_sub (tget xv (b ++ [i])) (tget x0v [i]))) in
  (exists y yv w',
     _call self x w = (Ok y, w') /\
     nth_error (tensors w') y = Some yv /\ closed yv) /\
  (cache_consistent w self ->
   exists y yv w',
     __call__ self x w = (Ok (Some y), w') /\
     nth_error (tensors w') y = Some yv /\ closed yv).
Proof.
  intros Heng Hsh Hx Hs. exact (forward_rad_y w self x x0v apv bpv xv D bs
                                  Heng Hsh Hx Hs).
Qed.

Lemma forward_closed_form_witness :
  exists y yv w',
    _call 0 3 Example.w1 = (Ok y, w') /\
    nth_error (tensors w') y = Some yv /\ tshape yv = [2].
Proof.
  destruct (forward_closed_form Example.w1 0 3 Example.x0_ex Example.ap_ex
              Example.bp_ex Example.x_ex 2 []
              example_engine example_shapes eq_refl eq_refl)
    as [(y & yv & w' & E & T & S & _) _].
  exists y, yv, w'. auto.
Defined.

(** ** The log-determinant *)

(** C2: for the same shapes, the tensor that the forward pass stores in
    [_cached_logDetJ], and that [log_abs_det_jacobian] returns, has the
    batch shape [bs] and holds for every batch element [b]
    [(D-1) log1p(beta h) + log1p(beta h + beta h' r)], the sum over the
    last dimension of size 1 being that single term; [h = 1/(alpha + r)]
    and [h' = - h^2]. *)
Theorem logdet_closed_form {K : Scalar} (w : world) (self : eref) (x : loc)
    (x0v apv bpv xv : tensor) (D : nat) (bs : shape) :
  radial_engine w self x0v apv bpv ->
  radial_shapes D x0v apv bpv ->
  nth_error (tensors w) x = Some xv ->
  tshape xv = bs ++ [D] ->
  let alpha := s_softplus (tget apv [0]) in
  let beta := s_add (s_neg alpha) (s_softplus (tget bpv [0])) in
  let r b := s_sqrt (s_sum D (fun j =>
               let v := s_sub (tget xv (b ++ [j])) (tget x0v [j]) in
               s_mul v v)) in
  let h b := s_recip (s_add alpha (r b)) in
  let h' b := s_neg (s_mul (h b) (h b)) in
  let closed ld :=
    tshape ld = bs /\
    forall b, valid bs b = true ->
      tget ld b =
      s_add (s_mul (s_of_Z (Z.of_nat D - 1)) (s_log1p (s_mul beta (h b))))
            (s_log1p (s_add (s_mul beta (h b))
                            (s_mul (s_mul beta (h' b)) (r b)))) in
  (exists y w' o' l ld,
     _call self x w = (Ok y, w') /\
     nth_error (engines w') self = Some o' /\
     _cached_logDetJ o' = Some l /\
     nth_error (tensors w') l = Some ld /\ closed ld) /\
  (cache_consistent w self ->
   forall y, exists l ld w',
     log_abs_det_jacobian self x y w = (Ok (Some l), w') /\
     nth_error (tensors w') l = Some ld /\ closed ld).
Proof.
  intros Heng Hsh Hx Hs alpha beta r h h' closed.
  pose proof Heng as (o & Ho & E0 & Ea & Eb).
  destruct (radial_values w self x0v apv bpv D Heng Hsh x xv bs o Ho Hx Hs)
    as (lc & ld & yv & Hlc & Hld & Hyv & _ & Sld).
  assert (Tl : nth_error (tensors (after_forward w self x o ld yv))
                 (length (tensors w)) = Some ld).
  { unfold after_forward. cbn [tensors]. rewrite nth_error_app2 by lia.
    now rewrite Nat.sub_diag. }
  split.
  - rewrite (_call_run w self x o lc ld yv Ho Hlc Hld Hyv).
    eexists _, _, _, (length (tensors w)), ld.
    split; [reflexivity|]. unfold after_call. cbn [engines tensors].
    split; [apply nth_error_upd_same; apply nth_error_Some; congruence|].
    split; [reflexivity|]. split; [exact Tl|exact Sld].
  - intros Hc y.
    destruct (is_same x (fst (_cached_x_y o))) eqn:Hit.
    + rewrite (log_abs_det_jacobian_same_x w self x y o Ho Hit).
      assert (Hlx : fst (_cached_x_y o) = Some x).
      { destruct (fst (_cached_x_y o)) as [l|]; [|discriminate].
        simpl in Hit. apply Nat.eqb_eq in Hit. now subst. }
      destruct (cache_consistent_values x0v apv bpv D w self o x xv bs
                  Heng Hc Ho Hlx Hx Hs)
        as (l & ly & ld' & yv' & Hl & _ & Tl' & _ & Hv & _).
      destruct (logdet_value_closed_form x0v apv bpv D Hsh xv bs Hs)
        as (ld'' & Hv' & Sld').
      assert (ld'' = ld') by congruence. subst ld''.
      exists l, ld', w. rewrite Hl. auto.
    + rewrite (log_abs_det_jacobian_other_x w self x y o lc ld yv
                 Ho Hlc Hld Hyv Hit).
      exists (length (tensors w)), ld, (after_forward w self x o ld yv).
      auto.
Qed.

Lemma logdet_closed_form_witness :
  exists l ld w',
    log_abs_det_jacobian 0 3 4 Example.w1 = (Ok (Some l), w') /\
    nth_error (tensors w') l = Some ld /\ tshape ld = [].
Proof.
  destruct (logdet_closed_form Example.w1 0 3 Example.x0_ex Example.ap_ex
              Example.bp_ex Example.x_ex 2 []
              example_engine example_shapes eq_refl eq_refl)
    as [_ H].
  destruct (H example_consistent 4) as (l & ld & w' & E & T & S & _).
  exists l, ld, w'. auto.
Defined.

(** ** The cache of [log_abs_det_jacobian] *)

Lemma is_same_true x o : is_same x o = true -> o = Some x.
Proof.
  destruct o as [l|]; simpl; [|discriminate].
  intros E. apply Nat.eqb_eq in E. now subst.
Qed.

Lemma example_engine_after :
  radial_engine Example.w2 0 Example.x0_ex Example.ap_ex Example.bp_ex.
Proof.
  apply (radial_engine_frame Example.w1 0 _ _ _ example_engine).
  apply frame___call__.
Qed.

Lemma example_consistent_after : cache_consistent Example.w2 0.
Proof.
  exact (cache_consistent_forward Example.w1 0 Example.x0_ex Example.ap_ex
           Example.bp_ex 2 example_engine example_shapes 3 Example.x_ex []
           eq_refl eq_refl example_consistent).
Qed.

(** C4: what the code does where the claim (and the comment of lines
    79-80) has it re-execute the forward map.  In every state in which the
    cache of the object holds a pair [(x, y_old)], and for every
    implementation of the scalars, a call [log_abs_det_jacobian(x, y)] with
    the cached [x] and another tensor object [y] is not a call with the
    cached pair, so that the condition of line 78 holds and [self(x)] is
    called; but [self(x)] answers from the cache, which compares [x] alone:
    the method returns the cached log-determinant and leaves the store as
    it found it.  No run of [_call] is recorded and the cached pair is
    still [(x, y_old)]: nothing is re-executed and nothing refreshed. *)
Theorem log_abs_det_jacobian_cached_x_other_y {K : Scalar} (w : world)
    (self : eref) (x y y_old : loc) (o : ConditionedRadial) :
  nth_error (engines w) self = Some o ->
  _cached_x_y o = (Some x, Some y_old) ->
  y <> y_old ->
  cache_hit o x y = false /\
  negb (is_same x (fst (_cached_x_y o))) || negb (is_same y (snd (_cached_x_y o)))
    = true /\
  log_abs_det_jacobian self x y w = (Ok (_cached_logDetJ o), w) /\
  trace (snd (log_abs_det_jacobian self x y w)) <> trace w ++ [EvCall self x] /\
  nth_error (engines (snd (log_abs_det_jacobian self x y w))) self = Some o.
Proof.
  intros Ho Ec N.
  assert (Hx : is_same x (fst (_cached_x_y o)) = true).
  { rewrite Ec. simpl. apply Nat.eqb_refl. }
  assert (Hy : is_same y (snd (_cached_x_y o)) = false).
  { rewrite Ec. simpl. now apply Nat.eqb_neq. }
  assert (E : log_abs_det_jacobian self x y w = (Ok (_cached_logDetJ o), w))
    by now apply log_abs_det_jacobian_same_x.
  split; [unfold cache_hit; now rewrite Hx, Hy|].
  split; [now rewrite Hx, Hy|].
  split; [exact E|]. rewrite E. simpl. split; [|exact Ho].
  intros F. apply (f_equal (@length event)) in F.
  rewrite length_app in F. simpl in F. lia.
Qed.

(** After [y = t(x)] in the store [Example.w1] (input 3, output 6,
    log-determinant 5), the call with the cached input and the tensor 4,
    another object with the elements of the input, as [y]. *)
Lemma log_abs_det_jacobian_cached_x_other_y_witness :
  nth_error (engines Example.w2) 0 =
    Some (mkCR (Some 0) (Some 1) (Some 2) (Some 3, Some 6) (Some 5)) /\
  cache_hit (mkCR (Some 0) (Some 1) (Some 2) (Some 3, Some 6) (Some 5)) 3 4
    = false /\
  log_abs_det_jacobian 0 3 4 Example.w2 = (Ok (Some 5), Example.w2) /\
  trace Example.w2 = [EvCall 0 3] /\
  trace (snd (log_abs_det_jacobian 0 3 4 Example.w2)) <>
    trace Example.w2 ++ [EvCall 0 3].
Proof.
  pose proof (log_abs_det_jacobian_cached_x_other_y Example.w2 0 3 4 6
                (mkCR (Some 0) (Some 1) (Some 2) (Some 3, Some 6) (Some 5))
                eq_refl eq_refl ltac:(discriminate))
    as (H1 & _ & H3 & H4 & _).
  split; [reflexivity|]. split; [exact H1|]. split; [exact H3|].
  split; [reflexivity|exact H4].
Defined.

(** ** The inverse *)

(** C5: [_inverse] raises [KeyError] for every argument in every state,
    and the state it leaves is the state it found. *)
Theorem inverse_always_raises {K : Scalar} (self : eref) (y : loc)
    (w : world) :
  _inverse self y w = (Raise KeyError, w).
Proof. reflexivity. Qed.

(** ** Independence of [y] *)

(** When [x] is not the cached input the method is a forward pass followed
    by a read of the attribute, and [y] does not occur. *)
Lemma log_abs_det_jacobian_reruns {K : Scalar} w self x y o :
  nth_error (engines w) self = Some o ->
  is_same x (fst (_cached_x_y o)) = false ->
  log_abs_det_jacobian self x y w =
  bind (bind (__call__ self x) (fun _ => ret tt))
       (fun _ => bind (read_engine self)
                      (fun o1 => ret (_cached_logDetJ o1))) w.
Proof.
  intros Ho Hit. unfold log_abs_det_jacobian.
  unfold bind at 1. unfold read_engine at 1. rewrite Ho.
  destruct (_cached_x_y o) as [x_old y_old]. simpl in Hit. rewrite Hit.
  reflexivity.
Qed.

(** In one state the outcome does not depend on [y] at all. *)
Lemma log_abs_det_jacobian_same_state {K : Scalar} (w : world)
    (self : eref) (x y1 y2 : loc) :
  log_abs_det_jacobian self x y1 w = log_abs_det_jacobian self x y2 w.
Proof.
  destruct (nth_error (engines w) self) as [o|] eqn:Ho.
  - destruct (is_same x (fst (_cached_x_y o))) eqn:Hit.
    + now rewrite !(log_abs_det_jacobian_same_x w self x _ o Ho Hit).
    + now rewrite !(log_abs_det_jacobian_reruns w self x _ o Ho Hit).
  - unfold log_abs_det_jacobian, bind, read_engine. now rewrite Ho.
Qed.

(** C9: the log-determinant returned by [log_abs_det_jacobian(x, y)] does
    not depend on [y].  In one state the outcome, the returned tensor and
    the state left, is the same for any two arguments [y1] and [y2],
    whatever they hold and whether or not they are the cached output.  And
    for two calls in any two consistent states, on inputs with the same
    value and objects with the same parameter values, the tensors returned
    hold the same log-determinant, whatever [y1] and [y2] are and whether
    the calls hit or miss. *)
Theorem log_abs_det_jacobian_ignores_y {K : Scalar} :
  (forall (w : world) (self : eref) (x y1 y2 : loc),
     log_abs_det_jacobian self x y1 w = log_abs_det_jacobian self x y2 w) /\
  (forall (w1 w2 : world) (self1 self2 : eref) (x1 x2 y1 y2 : loc)
          (x0v apv bpv xv : tensor) (D : nat) (bs : shape),
     radial_shapes D x0v apv bpv ->
     tshape xv = bs ++ [D] ->
     radial_engine w1 self1 x0v apv bpv ->
     radial_engine w2 self2 x0v apv bpv ->
     cache_consistent w1 self1 ->
     cache_consistent w2 self2 ->
     nth_error (tensors w1) x1 = Some xv ->
     nth_error (tensors w2) x2 = Some xv ->
     exists l1 l2 ld w1' w2',
       log_abs_det_jacobian self1 x1 y1 w1 = (Ok (Some l1), w1') /\
       log_abs_det_jacobian self2 x2 y2 w2 = (Ok (Some l2), w2') /\
       nth_error (tensors w1') l1 = Some ld /\
       nth_error (tensors w2') l2 = Some ld).
Proof.
  split; [apply log_abs_det_jacobian_same_state|].
  intros w1 w2 self1 self2 x1 x2 y1 y2 x0v apv bpv xv D bs
    Hsh Hs He1 He2 Hc1 Hc2 Hx1 Hx2.
  destruct (log_abs_det_jacobian_returns x0v apv bpv D Hsh w1 self1 x1 y1
              xv bs He1 Hc1 Hx1 Hs) as (l1 & ld1 & w1' & E1 & T1 & V1 & _).
  destruct (log_abs_det_jacobian_returns x0v apv bpv D Hsh w2 self2 x2 y2
              xv bs He2 Hc2 Hx2 Hs) as (l2 & ld2 & w2' & E2 & T2 & V2 & _).
  assert (ld2 = ld1) by congruence. subst ld2.
  exists l1, l2, ld1, w1', w2'. auto.
Qed.

(** The input 3 after it has been cached (a hit with its output 6) and the
    equal tensor 4 in the state before (a miss). *)
Lemma log_abs_det_jacobian_ignores_y_witness :
  exists l1 l2 ld w1' w2',
    log_abs_det_jacobian 0 3 6 Example.w2 = (Ok (Some l1), w1') /\
    log_abs_det_jacobian 0 4 0 Example.w1 = (Ok (Some l2), w2') /\
    nth_error (tensors w1') l1 = Some ld /\
    nth_error (tensors w2') l2 = Some ld.
Proof.
  exact (proj2 log_abs_det_jacobian_ignores_y Example.w2 Example.w1 0 0 3 4
           6 0 Example.x0_ex Example.ap_ex Example.bp_ex Example.x_ex 2 []
           example_shapes eq_refl example_engine_after example_engine
           example_consistent_after example_consistent eq_refl eq_refl).
Defined.

(** ** What a forward pass leaves alone *)

(** C10: a call of the forward map, returning or raising, leaves the
    three parameter attributes of the object pointing where they pointed
    and every tensor that existed holding what it held; no other
    transform object changes.  The attributes of the object that can
    differ afterwards are [_cached_x_y] and [_cached_logDetJ]. *)
Theorem forward_preserves_parameters {K : Scalar} (w : world) (self : eref)
    (x : loc) (o : ConditionedRadial) :
  nth_error (engines w) self = Some o ->
  let w' := snd (__call__ self x w) in
  (exists o',
     nth_error (engines w') self = Some o' /\
     x0 o' = x0 o /\ alpha_prime o' = alpha_prime o /\
     beta_prime o' = beta_prime o /\
     (forall v, field_value w (x0 o) = Some v ->
                field_value w' (x0 o') = Some v) /\
     (forall v, field_value w (alpha_prime o) = Some v ->
                field_value w' (alpha_prime o') = Some v) /\
     (forall v, field_value w (beta_prime o) = Some v ->
                field_value w' (beta_prime o') = Some v)) /\
  (forall l v, nth_error (tensors w) l = Some v ->
               nth_error (tensors w') l = Some v) /\
  (forall e, e <> self -> nth_error (engines w') e = nth_error (engines w) e) /\
  conds w' = conds w.
Proof.
  intros Ho w'.
  destruct (frame___call__ self x w) as ((new & T) & C & _ & O & S).
  fold w' in T, C, O, S.
  assert (Tv : forall l v, nth_error (tensors w) l = Some v ->
                           nth_error (tensors w') l = Some v).
  { intros l v E. rewrite T. now apply nth_error_app_some. }
  assert (Fv : forall a v, field_value w a = Some v ->
                           field_value w' a = Some v).
  { intros [l|] v; simpl; [apply Tv|discriminate]. }
  destruct (S o Ho) as (o' & Ho' & P0 & Pa & Pb).
  split; [|auto].
  exists o'. rewrite P0, Pa, Pb. auto 10.
Qed.

Lemma forward_preserves_parameters_witness :
  exists o',
    nth_error (engines (snd (__call__ 0 3 Example.w1))) 0 = Some o' /\
    x0 o' = Some 0 /\ alpha_prime o' = Some 1 /\ beta_prime o' = Some 2.
Proof.
  destruct (forward_preserves_parameters Example.w1 0 3 _ eq_refl)
    as [(o' & E & P0 & Pa & Pb & _) _].
  exists o'. auto.
Defined.

(** ** ConditionalRadial *)

(** C8: [condition] invokes the network of the object once, on the
    context, and returns a transform object that did not exist before,
    whose parameters are three fresh tensors holding what the network
    returned and whose cache is empty.  The existing transform objects and
    the [ConditionalRadial] objects are as they were, and a forward pass or
    a [log_abs_det_jacobian] on one transform object never changes
    another. *)
Theorem condition_builds_engine {K : Scalar} (w : world) (self : cref)
    (context : loc) (c : ConditionalRadial) (ctxv a b g : tensor) :
  nth_error (conds w) self = Some c ->
  nth_error (tensors w) context = Some ctxv ->
  nn c ctxv = Ok (a, b, g) ->
  let n := length (tensors w) in
  let e := length (engines w) in
  let w' :=
    mkW (tensors w ++ [a; b; g])
        (engines w ++
           [mkCR (Some n) (Some (S n)) (Some (S (S n))) (None, None) None])
        (conds w)
        (trace w ++ [EvNN self context]) in
  condition self context w = (Ok e, w') /\
  nth_error (engines w) e = None /\
  radial_engine w' e a b g /\
  (forall e' x w1, e' <> e ->
     nth_error (engines (snd (__call__ e' x w1))) e = nth_error (engines w1) e) /\
  (forall e' x y w1, e' <> e ->
     nth_error (engines (snd (log_abs_det_jacobian e' x y w1))) e =
     nth_error (engines w1) e).
Proof.
  intros Hc Hctx Hnn n e w'. split; [|split; [|split; [|split]]].
  - unfold condition, bind, read_cond, value_of, lift, emit, alloc_tensor,
      new_ConditionedRadial, alloc_engine.
    rewrite Hc. simpl. rewrite Hctx. simpl. rewrite Hnn. simpl.
    unfold w', n, e. rewrite !length_app. simpl.
    rewrite <- !app_assoc. simpl.
    now rewrite !Nat.add_1_r.
  - apply nth_error_None. unfold e. lia.
  - eexists. unfold w', e. cbn [engines]. split.
    { rewrite nth_error_app2 by lia. now rewrite Nat.sub_diag. }
    unfold field_value, n. cbn [x0 alpha_prime beta_prime tensors].
    repeat split; rewrite nth_error_app2 by lia.
    + now rewrite Nat.sub_diag.
    + now replace (S (length (tensors w)) - length (tensors w)) with 1 by lia.
    + now replace (S (S (length (tensors w))) - length (tensors w))
        with 2 by lia.
  - intros e' x w1 N.
    destruct (frame___call__ e' x w1) as (_ & _ & _ & O & _).
    apply O. congruence.
  - intros e' x y w1 N.
    destruct (frame_log_abs_det_jacobian e' x y w1) as (_ & _ & _ & O & _).
    apply O. congruence.
Qed.

Lemma condition_builds_engine_witness :
  condition 0 0 Example.wc =
  (Ok 0,
   mkW [Example.x_ex; Example.x_ex; Example.ap_ex; Example.bp_ex]
       [mkCR (Some 1) (Some 2) (Some 3) (None, None) None]
       (conds Example.wc)
       [EvNN 0 0]).
Proof.
  exact (proj1 (condition_builds_engine Example.wc 0 0 _
                  Example.x_ex Example.x_ex Example.ap_ex Example.bp_ex
                  eq_refl eq_refl eq_refl)).
Defined.

(** ** Invertibility: the reparameterization *)

(** In exact arithmetic the code's [-alpha + softplus(beta_prime)] is
    [softplus(beta_prime) - alpha]. *)
Lemma rad_beta_real (apv bpv : tensor) :
  rad_beta apv bpv =
  (softplusR (tget bpv [0%nat]) - softplusR (tget apv [0%nat]))%R.
Proof. unfold rad_beta, rad_alpha. simpl. lra. Qed.

(** C3: the condition is not enforced for every value of the
    pre-parameters.  The forward pass of a transform object with
    [alpha_prime = [1e9]] and [beta_prime = [21]] in single precision
    ([[1e18]] and [[21]] in double precision), a center [[0]] and the input
    [[1]] returns, for every C library; its locals are
    [alpha = softplus(alpha_prime) = alpha_prime], above the threshold of
    [softplus], and [beta = -alpha + softplus(beta_prime)], where
    [softplus(beta_prime) = 21] is lost in the rounding of the sum:
    [beta = -alpha] exactly.  So [beta > -alpha] is false and
    [beta + alpha] is [0], neither [softplus(beta_prime)] nor positive. *)
Theorem invertibility_lost_to_rounding (lm : IEEE.libm) :
  (exists lc,
     call_locals (Some (ExampleF.vec 24 128 lm [0]%Z))
                 (Some (ExampleF.vec 24 128 lm [10 ^ 9]%Z))
                 (Some (ExampleF.vec 24 128 lm [21]%Z))
                 (Some (ExampleF.vec 24 128 lm [1]%Z)) = Ok lc /\
     let a := tget (alpha lc) [0] in
     let b := tget (beta lc) [0] in
     a = IEEE.of_Z 24 128 (10 ^ 9) /\
     IEEE.softplus 24 128 lm (IEEE.of_Z 24 128 21) = IEEE.of_Z 24 128 21 /\
     b = SFopp a /\
     SFltb (SFopp a) b = false /\
     SFadd 24 128 b a = S754_zero false) /\
  fst (_call 0 3 (ExampleF.store 24 128 lm [0] [10 ^ 9] [21] [1])%Z) = Ok 5 /\
  (exists lc,
     call_locals (Some (ExampleF.vec 53 1024 lm [0]%Z))
                 (Some (ExampleF.vec 53 1024 lm [10 ^ 18]%Z))
                 (Some (ExampleF.vec 53 1024 lm [21]%Z))
                 (Some (ExampleF.vec 53 1024 lm [1]%Z)) = Ok lc /\
     let a := tget (alpha lc) [0] in
     let b := tget (beta lc) [0] in
     a = IEEE.of_Z 53 1024 (10 ^ 18) /\
     IEEE.softplus 53 1024 lm (IEEE.of_Z 53 1024 21) = IEEE.of_Z 53 1024 21 /\
     b = SFopp a /\
     SFltb (SFopp a) b = false /\
     SFadd 53 1024 b a = S754_zero false) /\
  fst (_call 0 3 (ExampleF.store 53 1024 lm [0] [10 ^ 18] [21] [1])%Z) = Ok 5.
Proof.
  split; [|split; [|split]].
  - eexists. split; [reflexivity|]. vm_compute. repeat split.
  - vm_compute. reflexivity.
  - eexists. split; [reflexivity|]. vm_compute. repeat split.
  - vm_compute. reflexivity.
Qed.

(** ** The degenerate case beta = 0 *)

Section IEEEFacts.
Variables prec emax : Z.

Lemma SFmul_zero_l a b :
  IEEE.is_zero a = true -> IEEE.is_finite b = true ->
  IEEE.is_zero (SFmul prec emax a b) = true.
Proof. destruct a, b; simpl; intros; try discriminate; reflexivity. Qed.

Lemma SFmul_zero_r a b :
  IEEE.is_finite a = true -> IEEE.is_zero b = true ->
  IEEE.is_zero (SFmul prec emax a b) = true.
Proof. destruct a, b; simpl; intros; try discriminate; reflexivity. Qed.

Lemma SFsub_finite_l a b :
  IEEE.is_finite (SFsub prec emax a b) = true -> IEEE.is_finite a = true.
Proof.
  destruct a as [|[|]| |], b as [|[|]| |]; simpl; intros; try discriminate;
    reflexivity.
Qed.

Lemma SFadd_zero_r a z :
  IEEE.is_finite a = true -> IEEE.is_zero z = true ->
  IEEE.same_number (SFadd prec emax a z) a.
Proof.
  destruct a as [[|]| | |], z as [[|]| | |]; simpl; intros; try discriminate;
    solve [left; reflexivity | right; split; reflexivity].
Qed.

(** [x - x] is [+0] for a finite [x]. *)
Lemma SFsub_diag a :
  IEEE.is_finite a = true -> SFsub prec emax a a = S754_zero false.
Proof.
  destruct a as [[|]| | |s m e]; simpl; intros; try discriminate;
    try reflexivity.
  rewrite Z.sub_diag. reflexivity.
Qed.

(** [x + (0 * h) * (x - c)] for finite [h] and [x - c]. *)
Lemma beta_zero_element (be hh xi ci : spec_float) :
  IEEE.is_zero be = true ->
  IEEE.is_finite hh = true ->
  IEEE.is_finite (SFsub prec emax xi ci) = true ->
  IEEE.same_number
    (SFadd prec emax xi
       (SFmul prec emax (SFmul prec emax be hh) (SFsub prec emax xi ci)))
    xi.
Proof.
  intros Hb Hh Hd.
  apply SFadd_zero_r.
  - exact (SFsub_finite_l xi ci Hd).
  - apply SFmul_zero_l; [|exact Hd]. now apply SFmul_zero_l.
Qed.

Lemma SFadd_zero_zero a b :
  IEEE.is_zero a = true -> IEEE.is_zero b = true ->
  IEEE.is_zero (SFadd prec emax a b) = true.
Proof.
  destruct a as [[|]| | |], b as [[|]| | |]; simpl; intros; try discriminate;
    reflexivity.
Qed.

Lemma SFopp_finite a : IEEE.is_finite (SFopp a) = IEEE.is_finite a.
Proof. now destruct a. Qed.

(** [c + bh * (c - c)] for finite [c] and [bh]. *)
Lemma center_element (bh ci : spec_float) :
  IEEE.is_finite bh = true ->
  IEEE.is_finite ci = true ->
  IEEE.same_number
    (SFadd prec emax ci (SFmul prec emax bh (SFsub prec emax ci ci))) ci.
Proof.
  intros Hb Hc. rewrite (SFsub_diag ci Hc).
  apply SFadd_zero_r; [exact Hc|]. now apply SFmul_zero_r.
Qed.

End IEEEFacts.

(** With [beta = 0] the forward map is not the identity on every input:
    for the doubles [x0 = [-1e308, 0]] and [x = [1e308, 0]], both finite,
    [x - x0] overflows to [+inf] in its first component, [r] is [+inf],
    [h] is [0] and [(beta h) (x - x0)] is [0 * inf], NaN: the first
    component of the output is NaN. *)
Lemma forward_not_identity_on_overflow :
  IEEE.is_zero (rad_beta (ExampleF.vec 53 1024 (ExampleF.lm_ex 53 1024) [21]%Z)
                         (ExampleF.vec 53 1024 (ExampleF.lm_ex 53 1024) [21]%Z))
    = true /\
  exists xv yv,
    nth_error (tensors ExampleF.wo) 3 = Some xv /\
    IEEE.is_finite (tget xv [0]) = true /\
    IEEE.is_finite (tget xv [1]) = true /\
    fst (_call 0 3 ExampleF.wo) = Ok 5 /\
    nth_error (tensors (snd (_call 0 3 ExampleF.wo))) 5 = Some yv /\
    tget yv [0] = S754_nan /\
    ~ IEEE.same_number (tget yv [0]) (tget xv [0]).
Proof.
  split; [vm_compute; reflexivity|].
  eexists _, _. split; [reflexivity|].
  split; [vm_compute; reflexivity|]. split; [vm_compute; reflexivity|].
  split; [vm_compute; reflexivity|]. split; [reflexivity|].
  split; [vm_compute; reflexivity|].
  intros [E|[E _]]; vm_compute in E; discriminate.
Qed.

(** The same for every C library: the output does not read [exp] or
    [log1p] for these pre-parameters. *)
Lemma forward_overflow_any_libm (lm : IEEE.libm) :
  exists yv,
    forward_value (ExampleF.vec 53 1024 lm [- 10 ^ 308; 0]%Z)
                  (ExampleF.vec 53 1024 lm [21]%Z)
                  (ExampleF.vec 53 1024 lm [21]%Z)
                  (ExampleF.vec 53 1024 lm [10 ^ 308; 0]%Z) = Ok yv /\
    tget yv [0] = S754_nan.
Proof. eexists. split; [reflexivity|]. vm_compute. reflexivity. Qed.

Section BetaZero.
Variables (prec emax : Z) (lm : IEEE.libm).
Local Notation "'KF'" := (IEEE.FScalar prec emax lm).

(** C6 (amended): on floats of any precision and for every C library,
    when the derived [beta = -alpha + softplus(beta_prime)] is a zero, the
    forward map returns a tensor of the shape of its input in which every
    component [i] of every batch element [b] whose [h = 1/(alpha + r)] and
    whose difference [x - x0] are finite holds the number the input holds:
    the same float, or a zero where the input holds a zero.  This is so
    for the body [_call] in every state and for the cached [__call__] in
    every state whose cache is consistent. *)
Theorem forward_identity_beta_zero_finite (w : @world KF) (self : eref)
    (x : loc) (x0v apv bpv xv : @tensor KF) (D : nat) (bs : shape) :
  @radial_engine KF w self x0v apv bpv ->
  @radial_shapes KF D x0v apv bpv ->
  nth_error (@tensors KF w) x = Some xv ->
  @tshape KF xv = bs ++ [D] ->
  IEEE.is_zero (@rad_beta KF apv bpv) = true ->
  let same (yv : @tensor KF) :=
    @tshape KF yv = bs ++ [D] /\
    forall b i, valid bs b = true -> i < D ->
      IEEE.is_finite (@rad_h KF x0v apv xv D b) = true ->
      IEEE.is_finite
        (SFsub prec emax (@tget KF xv (b ++ [i])) (@tget KF x0v [i])) = true ->
      IEEE.same_number (@tget KF yv (b ++ [i])) (@tget KF xv (b ++ [i])) in
  (exists y yv w',
     @_call KF self x w = (Ok y, w') /\
     nth_error (@tensors KF w') y = Some yv /\ same yv) /\
  (@cache_consistent KF w self ->
   exists y yv w',
     @__call__ KF self x w = (Ok (Some y), w') /\
     nth_error (@tensors KF w') y = Some yv /\ same yv).
Proof.
  intros Heng Hsh Hx Hs Hb same.
  assert (Id : forall yv : @tensor KF,
    (@tshape KF yv = bs ++ [D] /\
     forall b i, valid bs b = true -> i < D ->
       @tget KF yv (b ++ [i]) = @rad_y KF x0v apv bpv xv D b i) ->
    same yv).
  { intros yv [Sy Gy]. split; [exact Sy|].
    intros b i V L Hh Hd. rewrite (Gy b i V L). unfold rad_y.
    exact (beta_zero_element prec emax _ _ _ _ Hb Hh Hd). }
  destruct (@forward_rad_y KF w self x x0v apv bpv xv D bs Heng Hsh Hx Hs)
    as [(y & yv & w' & E & T & C) H2].
  split.
  - exists y, yv, w'. repeat split; try assumption; now apply Id.
  - intros Hc. destruct (H2 Hc) as (y2 & yv2 & w2 & E2 & T2 & C2).
    exists y2, yv2, w2. repeat split; try assumption; now apply Id.
Qed.

End BetaZero.

Lemma example_float_engine (c ap bp x : list Z) :
  radial_engine (ExampleF.store 53 1024 (ExampleF.lm_ex 53 1024) c ap bp x) 0
    (ExampleF.vec 53 1024 (ExampleF.lm_ex 53 1024) c)
    (ExampleF.vec 53 1024 (ExampleF.lm_ex 53 1024) ap)
    (ExampleF.vec 53 1024 (ExampleF.lm_ex 53 1024) bp).
Proof. eexists. repeat split; reflexivity. Qed.

Lemma forward_identity_beta_zero_finite_witness :
  exists y yv w',
    _call 0 3 ExampleF.wz = (Ok y, w') /\
    nth_error (tensors w') y = Some yv /\
    IEEE.same_number (tget yv [0]) (IEEE.of_Z 53 1024 3) /\
    IEEE.same_number (tget yv [1]) (IEEE.of_Z 53 1024 4).
Proof.
  destruct (forward_identity_beta_zero_finite 53 1024 (ExampleF.lm_ex 53 1024)
              ExampleF.wz 0 3 _ _ _ _ 2 []
              (example_float_engine [0; 0]%Z [21]%Z [21]%Z [3; 4]%Z)
              ltac:(repeat split) eq_refl eq_refl eq_refl)
    as [(y & yv & w' & E & T & S & G) _].
  exists y, yv, w'. split; [exact E|]. split; [exact T|]. split.
  - apply (G [] 0 eq_refl); [lia| |]; vm_compute; reflexivity.
  - apply (G [] 1 eq_refl); [lia| |]; vm_compute; reflexivity.
Defined.

(** ** Batches *)

Section Batches.
Context {K : Scalar}.
Variables (x0v apv bpv : tensor) (D : nat).
Hypothesis Hsh : radial_shapes D x0v apv bpv.

Lemma stack_ok t0 ts sh :
  Forall (fun t => tshape t = sh) (t0 :: ts) ->
  stack (t0 :: ts) =
  Ok (mkT (S (length ts) :: sh)
          (fun ix => match ix with
                     | [] => tget t0 []
                     | n :: ix' => tget (nth n (t0 :: ts) t0) ix'
                     end)).
Proof.
  intros F. unfold stack.
  assert (E0 : tshape t0 = sh) by now inversion F.
  replace (forallb _ (t0 :: ts)) with true; [now rewrite E0|].
  symmetry. apply forallb_forall. intros t I.
  rewrite Forall_forall in F. rewrite (F t I), E0.
  now destruct (list_eq_dec Nat.eq_dec sh sh).
Qed.

Lemma Forall2_nth {A B} (P : A -> B -> Prop) l l' n d d' :
  Forall2 P l l' -> n < length l -> P (nth n l d) (nth n l' d').
Proof.
  intros F. revert n. induction F as [|a b l l' Pab F IH]; intros n L;
    simpl in L; [lia|].
  destruct n as [|n]; simpl; [exact Pab|]. apply IH. lia.
Qed.

(** The forward value of a stack is the stack of the forward values. *)
Lemma forward_value_stack t0 ts ys Xv :
  Forall (fun t => tshape t = [D]) (t0 :: ts) ->
  Forall2 (fun x y => forward_value x0v apv bpv x = Ok y) (t0 :: ts) ys ->
  stack (t0 :: ts) = Ok Xv ->
  exists Y S,
    forward_value x0v apv bpv Xv = Ok Y /\ stack ys = Ok S /\ teq Y S.
Proof.
  intros Fs F2 HX. rewrite (stack_ok t0 ts [D] Fs) in HX.
  inversion HX as [EX]. clear HX.
  set (Xv0 := mkT (S (length ts) :: [D]) _) in EX.
  destruct (forward_value_closed_form x0v apv bpv D Hsh Xv0 [S (length ts)]
              eq_refl) as (Y & HY & SY & GY).
  assert (Fy : Forall2 (fun x y =>
            tshape y = [D] /\
            forall i, i < D -> tget y [i] = rad_y x0v apv bpv x D [] i)
            (t0 :: ts) ys).
  { clear EX GY. revert Fs. induction F2 as [|x y l l' E F2 IH]; intros Fs;
      constructor.
    - inversion Fs as [|? ? Sx _]; subst.
      destruct (forward_value_closed_form x0v apv bpv D Hsh x [] Sx)
        as (y' & E' & Sy & Gy).
      assert (y' = y) by congruence. subst y'.
      split; [exact Sy|]. intros i L. now apply (Gy [] i).
    - apply IH. now inversion Fs. }
  destruct ys as [|y0 ys']; [inversion F2|].
  assert (Len : length ys' = length ts).
  { apply Forall2_length in F2. simpl in F2. lia. }
  assert (Fsh : Forall (fun t => tshape t = [D]) (y0 :: ys')).
  { clear - Fy. remember (t0 :: ts) as l eqn:El. clear El.
    induction Fy as [|x y l l' [Sy _] _ IH]; constructor; assumption. }
  exists Y. eexists. split; [exact HY|].
  split; [apply (stack_ok y0 ys' [D] Fsh)|].
  split; [simpl; rewrite SY, Len; reflexivity|].
  intros ix V. rewrite SY in V.
  apply (valid_snoc_inv [S (length ts)] D) in V.
  destruct V as (b & i & -> & V & L).
  pose proof (valid_length _ _ V) as Lb.
  destruct b as [|n [|? ?]]; simpl in Lb; try discriminate.
  rewrite (GY [n] i V L).
  simpl in V. rewrite andb_true_r in V. apply Nat.ltb_lt in V.
  destruct (Forall2_nth _ (t0 :: ts) (y0 :: ys') n t0 y0 Fy) as [_ Gn];
    [simpl; lia|].
  cbn [tget app]. rewrite (Gn i L). reflexivity.
Qed.

End Batches.

Section BatchRuns.
Context {K : Scalar}.
Variables (self : eref) (x0v apv bpv : tensor) (D : nat).
Hypothesis Hsh : radial_shapes D x0v apv bpv.

Lemma frame_tensors w w' l (v : tensor) :
  frame self w w' ->
  nth_error (tensors w) l = Some v -> nth_error (tensors w') l = Some v.
Proof.
  intros ((new & T) & _) E. rewrite T. now apply nth_error_app_some.
Qed.

(** Forward passes on one vector after the other, on one object. *)
Lemma for_each_forward xs xvs :
  forall w,
    radial_engine w self x0v apv bpv ->
    cache_consistent w self ->
    Forall2 (fun l v => nth_error (tensors w) l = Some v /\ tshape v = [D])
            xs xvs ->
    exists ys yvs w',
      for_each (__call__ self) xs w = (Ok (map Some ys), w') /\
      Forall2 (fun l v => nth_error (tensors w') l = Some v) ys yvs /\
      Forall2 (fun xv yv => forward_value x0v apv bpv xv = Ok yv) xvs yvs /\
      frame self w w'.
Proof.
  revert xvs. induction xs as [|x xs IH]; intros xvs w Heng Hc F;
    inversion F as [|? xv ? xvs' [Hx Hs] F']; subst.
  - exists [], [], w. split; [reflexivity|]. split; [constructor|].
    split; [constructor|apply frame_refl].
  - destruct (forward_returns x0v apv bpv D Hsh w self x xv [] Heng Hc Hx Hs)
      as (y & yv & w1 & E & T & Hfv & Fr & Hc1).
    assert (Heng1 : radial_engine w1 self x0v apv bpv)
      by now apply (radial_engine_frame w self x0v apv bpv Heng).
    assert (F1 : Forall2 (fun l v => nth_error (tensors w1) l = Some v /\
                                      tshape v = [D]) xs xvs').
    { clear - F' Fr. induction F' as [|? ? ? ? [Hl Hv] _ IH']; constructor;
        [|exact IH']. split; [|exact Hv]. now apply (frame_tensors w). }
    destruct (IH xvs' w1 Heng1 Hc1 F1) as (ys & yvs & w' & E' & Fy & Fv & Fr').
    exists (y :: ys), (yv :: yvs), w'.
    split; [|split; [|split]].
    + simpl. unfold bind at 1. rewrite E. unfold bind at 1. rewrite E'.
      reflexivity.
    + constructor; [|exact Fy]. now apply (frame_tensors w1).
    + now constructor.
    + now apply (frame_trans self w w1 w').
Qed.

End BatchRuns.

(** C7: for vectors of dimension [D] and their stack [X] (a batch of
    shape [[N; D]]), the forward map applied to [X] returns a tensor equal
    to the stack of what it returns when applied to the vectors one after
    the other on the same object. *)
Theorem batch_invariance {K : Scalar} (w : world) (self : eref)
    (x0v apv bpv : tensor) (D : nat) (xs : list loc) (xvs : list tensor)
    (X : loc) (Xv : tensor) :
  radial_engine w self x0v apv bpv ->
  radial_shapes D x0v apv bpv ->
  cache_consistent w self ->
  Forall2 (fun l v => nth_error (tensors w) l = Some v /\ tshape v = [D])
          xs xvs ->
  nth_error (tensors w) X = Some Xv ->
  stack xvs = Ok Xv ->
  exists Y Yv w1 ys yvs w2 Ys,
    __call__ self X w = (Ok (Some Y), w1) /\
    nth_error (tensors w1) Y = Some Yv /\
    for_each (__call__ self) xs w = (Ok (map Some ys), w2) /\
    Forall2 (fun l v => nth_error (tensors w2) l = Some v) ys yvs /\
    stack yvs = Ok Ys /\
    teq Yv Ys.
Proof.
  intros Heng Hsh Hc F HX Hst.
  destruct (for_each_forward self x0v apv bpv D Hsh xs xvs w Heng Hc F)
    as (ys & yvs & w2 & E2 & Fy & Fv & _).
  destruct xvs as [|t0 ts]; [discriminate|].
  assert (Fs : Forall (fun t => tshape t = [D]) (t0 :: ts)).
  { clear - F. remember (t0 :: ts) as l eqn:El. clear El.
    induction F as [|? ? ? ? [_ Hv] _ IH]; constructor; assumption. }
  destruct (forward_value_stack x0v apv bpv D Hsh t0 ts yvs Xv Fs Fv Hst)
    as (Yv & Ys & HY & HS & Hteq).
  assert (SX : tshape Xv = [S (length ts)] ++ [D]).
  { rewrite (stack_ok t0 ts [D] Fs) in Hst. now inversion Hst. }
  destruct (forward_returns x0v apv bpv D Hsh w self X Xv [S (length ts)]
              Heng Hc HX SX)
    as (Y & Yv' & w1 & E1 & T1 & HY' & _).
  assert (Yv' = Yv) by congruence. subst Yv'.
  exists Y, Yv, w1, ys, yvs, w2, Ys. auto 10.
Qed.

Lemma batch_invariance_witness :
  exists Y w1 ys w2,
    __call__ 0 5 Example.wb = (Ok (Some Y), w1) /\
    for_each (__call__ 0) [3; 4] Example.wb = (Ok (map Some ys), w2).
Proof.
  assert (He : radial_engine Example.wb 0 Example.x0_ex Example.ap_ex
                 Example.bp_ex).
  { eexists. repeat split; reflexivity. }
  assert (Hc : cache_consistent Example.wb 0).
  { intros o lx Ho Hlx. inversion Ho; subst o. discriminate. }
  destruct (batch_invariance Example.wb 0 Example.x0_ex Example.ap_ex
              Example.bp_ex 2 [3; 4] [Example.x_ex; Example.x2_ex] 5
              Example.X_ex He example_shapes Hc)
    as (Y & Yv & w1 & ys & yvs & w2 & Ys & E1 & _ & E2 & _).
  - repeat constructor.
  - reflexivity.
  - reflexivity.
  - exists Y, w1, ys, w2. auto.
Defined.

(** * Further properties of the code *)

(** ** Every outcome of [_call] and of the cached forward map *)

Section Outcomes.
Context {K : Scalar}.

Lemma _call_eq w self x o :
  nth_error (engines w) self = Some o ->
  _call self x w = call_outcome w self x o.
Proof.
  intros Ho.
  unfold _call, call_outcome, bind, read_engine, emit, value_of, lift,
    alloc_tensor, write_engine, traced, after_failed_output, after_call.
  rewrite Ho. cbn [tensors engines conds trace].
  change (field_value (mkW (tensors w) (engines w) (conds w)
                           (trace w ++ [EvCall self x])))
    with (field_value w).
  destruct (call_locals _ _ _ _) as [lc|e]; [|reflexivity].
  destruct (call_logdet _ lc) as [ld|e]; [|reflexivity].
  cbn [tensors engines conds trace]. rewrite Ho.
  cbn [tensors engines conds trace].
  destruct (call_output _ lc) as [yv|e]; [|reflexivity].
  cbn [tensors engines conds trace].
  rewrite length_app, Nat.add_1_r, <- app_assoc. reflexivity.
Qed.

(** A run of [_call] records itself, returning or raising. *)
Lemma _call_trace w self x o :
  nth_error (engines w) self = Some o ->
  trace (snd (_call self x w)) = trace w ++ [EvCall self x].
Proof.
  intros Ho. rewrite (_call_eq w self x o Ho). unfold call_outcome.
  destruct (call_locals _ _ _ _) as [lc|e]; [|reflexivity].
  destruct (call_logdet _ lc) as [ld|e]; [|reflexivity].
  destruct (call_output _ lc) as [yv|e]; reflexivity.
Qed.

(** The cached forward map when the input is not the cached one. *)
Lemma __call___other_x w self x o :
  nth_error (engines w) self = Some o ->
  is_same x (fst (_cached_x_y o)) = false ->
  __call__ self x w =
  match call_outcome w self x o with
  | (Ok y, w1) =>
      (Ok (Some y),
       mkW (tensors w1)
           (upd (engines w1) self
              (mkCR (x0 o) (alpha_prime o) (beta_prime o) (Some x, Some y)
                    (Some (length (tensors w)))))
           (conds w1) (trace w1))
  | (Raise e, w1) => (Raise e, w1)
  end.
Proof.
  intros Ho Hm. unfold __call__. unfold bind at 1. unfold read_engine at 1.
  rewrite Ho. destruct (_cached_x_y o) as [x_old y_old] eqn:Ec.
  simpl in Hm. rewrite Hm. unfold bind at 1.
  rewrite (_call_eq w self x o Ho). unfold call_outcome.
  destruct (call_locals _ _ _ _) as [lc|e]; [|reflexivity].
  destruct (call_logdet _ lc) as [ld|e]; [|reflexivity].
  destruct (call_output _ lc) as [yv|e]; [|reflexivity].
  unfold bind, read_engine, write_engine, ret, after_call.
  cbn [tensors engines conds trace].
  rewrite nth_error_upd_same by (apply nth_error_Some; congruence).
  reflexivity.
Qed.

End Outcomes.

Section CacheUse.
Context {K : Scalar}.

(** A forward pass that returns has its input and output as cached pair. *)
Lemma __call___caches w self x r w1 :
  __call__ self x w = (Ok r, w1) ->
  exists o1, nth_error (engines w1) self = Some o1 /\
             _cached_x_y o1 = (Some x, r).
Proof.
  intros E.
  destruct (nth_error (engines w) self) as [o|] eqn:Ho.
  - destruct (is_same x (fst (_cached_x_y o))) eqn:Hit.
    + rewrite (__call___hit w self x o Ho Hit) in E.
      inversion E; subst. exists o. split; [exact Ho|].
      apply is_same_true in Hit. destruct (_cached_x_y o) as [a b].
      simpl in *. now subst.
    + rewrite (__call___other_x w self x o Ho Hit) in E.
      destruct (call_outcome w self x o) as [[y|e] w'] eqn:Eo;
        [|discriminate].
      inversion E; subst.
      exists (mkCR (x0 o) (alpha_prime o) (beta_prime o) (Some x, Some y)
                   (Some (length (tensors w)))).
      split; [|reflexivity].
      cbn [engines]. apply nth_error_upd_same.
      unfold call_outcome in Eo.
      destruct (call_locals _ _ _ _) as [lc|]; [|discriminate].
      destruct (call_logdet _ lc) as [ld|]; [|discriminate].
      destruct (call_output _ lc) as [yv|]; [|discriminate].
      inversion Eo; subst. unfold after_call. cbn [engines].
      rewrite length_upd. apply nth_error_Some. congruence.
  - unfold __call__, bind, read_engine in E. rewrite Ho in E. discriminate.
Qed.

(** The cached forward map on an input that is not the cached one records
    one run of [_call], returning or raising. *)
Lemma __call___trace_other_x w self x o :
  nth_error (engines w) self = Some o ->
  is_same x (fst (_cached_x_y o)) = false ->
  trace (snd (__call__ self x w)) = trace w ++ [EvCall self x].
Proof.
  intros Ho Hm. rewrite (__call___other_x w self x o Ho Hm).
  rewrite <- (_call_trace w self x o Ho), (_call_eq w self x o Ho).
  destruct (call_outcome w self x o) as [[y|e] w']; reflexivity.
Qed.

Lemma log_abs_det_jacobian_trace_other_x w self x y o :
  nth_error (engines w) self = Some o ->
  is_same x (fst (_cached_x_y o)) = false ->
  trace (snd (log_abs_det_jacobian self x y w)) = trace w ++ [EvCall self x].
Proof.
  intros Ho Hm. rewrite (log_abs_det_jacobian_reruns w self x y o Ho Hm).
  rewrite <- (__call___trace_other_x w self x o Ho Hm).
  unfold bind at 1 2. destruct (__call__ self x w) as [[r|e] w'];
    [|reflexivity].
  unfold ret, bind, read_engine.
  destruct (nth_error (engines w') self); reflexivity.
Qed.

End CacheUse.

(** X1: after a forward pass [y = t(x)] that returned, a second [t(x)] on
    the same tensor object and [t.log_abs_det_jacobian(x, y)] are answered
    from the cache: the same output object and the stored log-determinant
    come back, the state stays as it is and [_call] does not run again. *)
Theorem forward_then_cached {K : Scalar} (w : world) (self : eref)
    (x y : loc) (w1 : world) :
  __call__ self x w = (Ok (Some y), w1) ->
  __call__ self x w1 = (Ok (Some y), w1) /\
  exists o1,
    nth_error (engines w1) self = Some o1 /\
    log_abs_det_jacobian self x y w1 = (Ok (_cached_logDetJ o1), w1).
Proof.
  intros E. destruct (__call___caches w self x (Some y) w1 E) as (o1 & Ho1 & Ec).
  assert (Hit : is_same x (fst (_cached_x_y o1)) = true).
  { rewrite Ec. simpl. apply Nat.eqb_refl. }
  split.
  - rewrite (__call___hit w1 self x o1 Ho1 Hit). now rewrite Ec.
  - exists o1. split; [exact Ho1|].
    now apply log_abs_det_jacobian_same_x.
Qed.

Lemma forward_then_cached_witness :
  __call__ 0 3 Example.w2 = (Ok (Some 6), Example.w2) /\
  exists o1,
    nth_error (engines Example.w2) 0 = Some o1 /\
    log_abs_det_jacobian 0 3 6 Example.w2 =
    (Ok (_cached_logDetJ o1), Example.w2).
Proof.
  exact (forward_then_cached Example.w1 0 3 6 Example.w2 eq_refl).
Defined.

(** X2: the cache holds one pair.  After a forward pass on a tensor [x2]
    has returned, [log_abs_det_jacobian(x1, y1)] for any other tensor
    object [x1], the pair of an earlier forward pass included, runs
    [_call] on [x1] again. *)
Theorem cache_holds_one_pair {K : Scalar} (w : world) (self : eref)
    (x1 x2 y1 : loc) (r : option loc) (w1 : world) :
  __call__ self x2 w = (Ok r, w1) ->
  x1 <> x2 ->
  trace (snd (log_abs_det_jacobian self x1 y1 w1)) =
  trace w1 ++ [EvCall self x1].
Proof.
  intros E N. destruct (__call___caches w self x2 r w1 E) as (o1 & Ho1 & Ec).
  apply (log_abs_det_jacobian_trace_other_x w1 self x1 y1 o1 Ho1).
  rewrite Ec. simpl. now apply Nat.eqb_neq.
Qed.

Lemma cache_holds_one_pair_witness :
  trace (snd (log_abs_det_jacobian 0 4 6 Example.w2)) =
  trace Example.w2 ++ [EvCall 0 4].
Proof.
  apply (cache_holds_one_pair Example.w1 0 4 3 6 (Some 6) Example.w2 eq_refl).
  discriminate.
Defined.

(** X3: an object whose [alpha_prime] is [None], as
    [ConditionedRadial()] with the default arguments is, cannot be
    evaluated: a forward pass and [log_abs_det_jacobian] on an input that
    is not cached raise [TypeError] at line 47 and change nothing of the
    object. *)
Theorem forward_without_parameters {K : Scalar} (w : world) (self : eref)
    (x y : loc) (o : ConditionedRadial) :
  nth_error (engines w) self = Some o ->
  alpha_prime o = None ->
  is_same x (fst (_cached_x_y o)) = false ->
  __call__ self x w = (Raise TypeError, traced w (EvCall self x)) /\
  log_abs_det_jacobian self x y w =
    (Raise TypeError, traced w (EvCall self x)).
Proof.
  intros Ho Ha Hm.
  assert (E : __call__ self x w = (Raise TypeError, traced w (EvCall self x))).
  { rewrite (__call___other_x w self x o Ho Hm). unfold call_outcome.
    rewrite Ha. reflexivity. }
  split; [exact E|].
  rewrite (log_abs_det_jacobian_reruns w self x y o Ho Hm).
  unfold bind at 1 2. now rewrite E.
Qed.

Lemma forward_without_parameters_witness :
  __call__ 0 3 (snd (new_ConditionedRadial None None None Example.w0)) =
  (Raise TypeError,
   traced (snd (new_ConditionedRadial None None None Example.w0))
          (EvCall 0 3)).
Proof.
  exact (proj1 (forward_without_parameters
    (snd (new_ConditionedRadial None None None Example.w0)) 0 3 3 _
    eq_refl eq_refl eq_refl)).
Defined.

(** ** Inputs of other shapes *)

Section OtherShapes.
Context {K : Scalar}.

Lemma rev_nil_inv {A} (l : list A) : rev l = [] -> l = [].
Proof.
  intros E. apply (f_equal (@rev A)) in E. now rewrite rev_involutive in E.
Qed.

Lemma rev_cons_inv {A} (l : list A) a r :
  rev l = a :: r -> l = rev r ++ [a].
Proof.
  intros E. apply (f_equal (@rev A)) in E. now rewrite rev_involutive in E.
Qed.

(** Broadcasting against a vector fails exactly on a last dimension that
    is neither the vector's nor 1, the vector not being of size 1. *)
Lemma broadcast_vec_none sx d :
  broadcast_shapes sx [d] = None <->
  exists bs m, sx = bs ++ [m] /\ m <> d /\ m <> 1 /\ d <> 1.
Proof.
  unfold broadcast_shapes. simpl. split.
  - destruct (rev sx) as [|m rs] eqn:Er; simpl; [discriminate|].
    rewrite bshape_rev_nil_r. unfold bdim.
    destruct (m =? d) eqn:E1; [discriminate|].
    destruct (m =? 1) eqn:E2; [discriminate|].
    destruct (d =? 1) eqn:E3; [discriminate|].
    intros _. exists (rev rs), m. split; [now apply rev_cons_inv|].
    apply Nat.eqb_neq in E1, E2, E3. auto.
  - intros (bs & m & -> & N1 & N2 & N3). rewrite rev_unit. simpl.
    unfold bdim. apply Nat.eqb_neq in N1, N2, N3.
    now rewrite N1, N2, N3.
Qed.

(** The result of broadcasting against a vector has a last dimension and
    absorbs the shape it came from. *)
Lemma broadcast_vec_some sx d sd :
  broadcast_shapes sx [d] = Some sd ->
  (exists rs e, sd = rs ++ [e]) /\ broadcast_shapes sx sd = Some sd.
Proof.
  unfold broadcast_shapes. simpl.
  destruct (rev sx) as [|m rs] eqn:Er; simpl.
  - intros E. inversion E; subst. split; [now exists [], d|].
    reflexivity.
  - rewrite bshape_rev_nil_r.
    destruct (bdim m d) as [e|] eqn:Eb; [|discriminate].
    simpl. intros E. inversion E; subst. split; [now exists (rev rs), e|].
    rewrite rev_unit, rev_involutive. simpl.
    assert (Ee : bdim m e = Some e).
    { unfold bdim in Eb. destruct (m =? d) eqn:E1.
      - inversion Eb; subst. apply bdim_refl.
      - destruct (m =? 1) eqn:E2.
        + inversion Eb; subst. apply Nat.eqb_eq in E2. subst.
          apply bdim_one_l.
        + destruct (d =? 1); [|discriminate]. inversion Eb; subst.
          apply bdim_refl. }
    rewrite Ee, bshape_rev_refl. reflexivity.
Qed.

Variables (x0v apv bpv xv : tensor) (D : nat).
Hypothesis Hsh : radial_shapes D x0v apv bpv.

(** Lines 47-59 go through for every input that broadcasts against the
    center, and give the broadcast shape. *)
Lemma forward_shapes sd :
  broadcast_shapes (tshape xv) [D] = Some sd ->
  exists lc ld yv,
    call_locals (Some x0v) (Some apv) (Some bpv) (Some xv) = Ok lc /\
    call_logdet (Some x0v) lc = Ok ld /\
    call_output (Some xv) lc = Ok yv /\
    tshape yv = sd /\ tshape ld = removelast sd.
Proof.
  intros Hb. destruct Hsh as (S0 & Sa & Sb).
  destruct (broadcast_vec_some _ _ _ Hb) as [(rs & e & ->) Hidem].
  unfold call_locals, tadd, tsub, tmul. simpl.
  destruct (tmap2_spec s_add (tneg (tmap s_softplus apv))
              (tmap s_softplus bpv) [1]) as (be & -> & Sbe & _).
  { simpl. rewrite Sa, Sb. reflexivity. }
  simpl.
  destruct (tmap2_spec s_sub xv x0v (rs ++ [e])) as (df & -> & Sdf & _).
  { now rewrite S0. }
  simpl. rewrite (tnorm_last_snoc df rs e Sdf).
  set (rr := mkT (rs ++ [1]) _).
  assert (Srr : tshape rr = rs ++ [1]) by reflexivity. clearbody rr.
  destruct (tmap2_spec s_add (tmap s_softplus apv) rr (rs ++ [1]))
    as (ar & -> & Sar & _).
  { simpl. rewrite Sa, Srr. apply broadcast_one_l. }
  simpl.
  destruct (tmap2_spec s_mul be (tmap s_recip ar) (rs ++ [1]))
    as (bh & -> & Sbh & _).
  { simpl. rewrite Sbe, Sar. apply broadcast_one_l. }
  simpl.
  set (lc := mkLocals _ _ _ _ _ _ _).
  assert (Eld : exists ld, call_logdet (Some x0v) lc = Ok ld /\
                           tshape ld = removelast (rs ++ [e])).
  { unfold call_logdet, tadd, tmul, lc. simpl.
    rewrite (tsize_last_snoc x0v [] D S0). simpl.
    destruct (tmap2_spec s_mul be
                (tneg (tmap (fun v => s_mul v v) (tmap s_recip ar)))
                (rs ++ [1])) as (bhp & -> & Sbhp & _).
    { simpl. rewrite Sbe, Sar. apply broadcast_one_l. }
    simpl.
    destruct (tmap2_spec s_mul bhp rr (rs ++ [1])) as (bhpr & -> & Sbhpr & _).
    { rewrite Sbhp, Srr. apply broadcast_same. }
    simpl.
    destruct (tmap2_spec s_add bh bhpr (rs ++ [1])) as (s & -> & Ss & _).
    { rewrite Sbh, Sbhpr. apply broadcast_same. }
    simpl.
    destruct (tmap2_spec s_add
                (tmap (s_mul (s_of_Z (Z.of_nat D - 1))) (tmap s_log1p bh))
                (tmap s_log1p s) (rs ++ [1])) as (t & -> & St & _).
    { simpl. rewrite Sbh, Ss. apply broadcast_same. }
    simpl. rewrite (tsum_last_snoc t rs 1 St).
    eexists. split; [reflexivity|]. simpl. now rewrite removelast_last. }
  assert (Eyv : exists yv, call_output (Some xv) lc = Ok yv /\
                           tshape yv = rs ++ [e]).
  { unfold call_output, tadd, tmul, lc. simpl.
    destruct (tmap2_spec s_mul bh df (rs ++ [e])) as (bd & -> & Sbd & _).
    { rewrite Sbh, Sdf. apply broadcast_keep. }
    simpl.
    destruct (tmap2_spec s_add xv bd (rs ++ [e])) as (yv & -> & Sy & _).
    { now rewrite Sbd. }
    now exists yv. }
  destruct Eld as (ld & Eld & Sld). destruct Eyv as (yv & Eyv & Syv).
  exists lc, ld, yv. auto.
Qed.

End OtherShapes.

Section OtherShapeRuns.
Context {K : Scalar}.
Variables (w : world) (self : eref) (x0v apv bpv : tensor) (D : nat).
Hypothesis Heng : radial_engine w self x0v apv bpv.
Hypothesis Hsh : radial_shapes D x0v apv bpv.
Hypothesis Hc : cache_consistent w self.

(** In a consistent state the forward map returns a tensor holding what
    line 59 computes, whenever lines 47-59 go through. *)
Lemma forward_returns_output (x : loc) xv lc ld yv :
  nth_error (tensors w) x = Some xv ->
  call_locals (Some x0v) (Some apv) (Some bpv) (Some xv) = Ok lc ->
  call_logdet (Some x0v) lc = Ok ld ->
  call_output (Some xv) lc = Ok yv ->
  exists y w',
    __call__ self x w = (Ok (Some y), w') /\
    nth_error (tensors w') y = Some yv.
Proof.
  intros Hx Hlc Hld Hyv. destruct Heng as (o & Ho & E0 & Ea & Eb).
  destruct (is_same x (fst (_cached_x_y o))) eqn:Hit.
  - rewrite (__call___hit w self x o Ho Hit).
    destruct (Hc o x Ho (is_same_true _ _ Hit))
      as (lc' & ld' & yv' & l & ly & Hlc' & _ & Hyv' & _ & _ & Hly & Tly).
    simpl in Hlc', Hyv'. rewrite E0, Ea, Eb, Hx in Hlc'. rewrite Hx in Hyv'.
    assert (lc' = lc) by congruence. subst lc'.
    assert (yv' = yv) by congruence. subst yv'.
    exists ly, w. now rewrite Hly.
  - assert (Hlc2 : call_locals (field_value w (x0 o))
               (field_value w (alpha_prime o)) (field_value w (beta_prime o))
               (field_value w (Some x)) = Ok lc).
    { simpl. now rewrite E0, Ea, Eb, Hx. }
    assert (Hld2 : call_logdet (field_value w (x0 o)) lc = Ok ld)
      by now rewrite E0.
    assert (Hyv2 : call_output (field_value w (Some x)) lc = Ok yv).
    { simpl. now rewrite Hx. }
    rewrite (__call___miss w self x o lc ld yv Ho Hlc2 Hld2 Hyv2 Hit).
    eexists _, _. split; [reflexivity|].
    unfold after_forward. cbn [tensors]. rewrite nth_error_app2 by lia.
    now replace (S (length (tensors w)) - length (tensors w)) with 1 by lia.
Qed.

(** In a consistent state an input on which line 51 raises is not the
    cached input, and the forward map stops there. *)
Lemma forward_stops_at_diff (x : loc) xv e :
  nth_error (tensors w) x = Some xv ->
  tsub xv x0v = Raise e ->
  __call__ self x w = (Raise e, traced w (EvCall self x)).
Proof.
  intros Hx Hd. destruct Heng as (o & Ho & E0 & Ea & Eb).
  destruct Hsh as (S0 & Sa & Sb).
  assert (Hl : call_locals (field_value w (x0 o))
             (field_value w (alpha_prime o)) (field_value w (beta_prime o))
             (field_value w (Some x)) = Raise e).
  { simpl. rewrite E0, Ea, Eb, Hx. unfold call_locals. simpl.
    unfold tadd at 1.
    destruct (tmap2_spec s_add (tneg (tmap s_softplus apv))
                (tmap s_softplus bpv) [1]) as (be & -> & _).
    { simpl. rewrite Sa, Sb. reflexivity. }
    simpl. now rewrite Hd. }
  destruct (is_same x (fst (_cached_x_y o))) eqn:Hit.
  - destruct (Hc o x Ho (is_same_true _ _ Hit)) as (lc & ? & ? & ? & ? & Hlc & _).
    rewrite Hl in Hlc. discriminate.
  - rewrite (__call___other_x w self x o Ho Hit). unfold call_outcome.
    now rewrite Hl.
Qed.

End OtherShapeRuns.

(** X4: with parameters of the shapes of the data model and a consistent
    cache, a forward pass on an input whose last dimension [m] is neither
    [D] nor 1 (and [D] is not 1) raises [RuntimeError] at line 51, before
    anything is stored: the object, its cache and every tensor are as they
    were, and [log_abs_det_jacobian] fails the same way. *)
Theorem forward_shape_mismatch {K : Scalar} (w : world) (self : eref)
    (x y : loc) (x0v apv bpv xv : tensor) (D m : nat) (bs : shape) :
  radial_engine w self x0v apv bpv ->
  radial_shapes D x0v apv bpv ->
  cache_consistent w self ->
  nth_error (tensors w) x = Some xv ->
  tshape xv = bs ++ [m] ->
  m <> D -> m <> 1 -> D <> 1 ->
  __call__ self x w = (Raise RuntimeError, traced w (EvCall self x)) /\
  log_abs_det_jacobian self x y w =
    (Raise RuntimeError, traced w (EvCall self x)).
Proof.
  intros Heng Hsh Hc Hx Hs N1 N2 N3.
  assert (Hd : tsub xv x0v = Raise RuntimeError).
  { unfold tsub, tmap2. destruct Hsh as (S0 & _). rewrite S0.
    replace (broadcast_shapes (tshape xv) [D]) with (@None shape);
      [reflexivity|].
    symmetry. apply broadcast_vec_none. exists bs, m. auto. }
  assert (E : __call__ self x w =
              (Raise RuntimeError, traced w (EvCall self x)))
    by exact (forward_stops_at_diff w self x0v apv bpv D Heng Hsh Hc x xv _
                Hx Hd).
  split; [exact E|].
  pose proof Heng as (o & Ho & _).
  destruct (is_same x (fst (_cached_x_y o))) eqn:Hit.
  - rewrite (__call___hit w self x o Ho Hit) in E. discriminate.
  - rewrite (log_abs_det_jacobian_reruns w self x y o Ho Hit).
    unfold bind at 1 2. now rewrite E.
Qed.

Lemma forward_shape_mismatch_witness :
  __call__ 0 3 Example2.w_mis =
  (Raise RuntimeError, traced Example2.w_mis (EvCall 0 3)).
Proof.
  refine (proj1 (forward_shape_mismatch Example2.w_mis 0 3 3 Example.x0_ex
                   Example.ap_ex Example.bp_ex Example2.x3_ex 2 3 []
                   _ example_shapes _ eq_refl eq_refl _ _ _)); try lia.
  - eexists. repeat split; reflexivity.
  - intros o lx Ho Hlx. inversion Ho; subst o. discriminate.
Defined.

(** X5: with parameters of the shapes of the data model and a consistent
    cache, the forward map accepts every input whose shape broadcasts
    against [[D]] and returns a tensor of the broadcast shape: a
    0-dimensional input or an input with last dimension 1 is spread over
    the [D] components of the center (the output has last dimension [D]),
    and with [D = 1] the center is spread over the last dimension of the
    input. *)
Theorem forward_broadcasts {K : Scalar} (w : world) (self : eref)
    (x : loc) (x0v apv bpv xv : tensor) (D : nat) (sd : shape) :
  radial_engine w self x0v apv bpv ->
  radial_shapes D x0v apv bpv ->
  cache_consistent w self ->
  nth_error (tensors w) x = Some xv ->
  broadcast_shapes (tshape xv) [D] = Some sd ->
  exists y yv w',
    __call__ self x w = (Ok (Some y), w') /\
    nth_error (tensors w') y = Some yv /\
    tshape yv = sd /\
    (tshape xv = [] -> sd = [D]) /\
    (forall bs, tshape xv = bs ++ [1] -> sd = bs ++ [D]) /\
    (forall bs m, D = 1 -> tshape xv = bs ++ [m] -> sd = bs ++ [m]).
Proof.
  intros Heng Hsh Hc Hx Hb.
  destruct (forward_shapes x0v apv bpv xv D Hsh sd Hb)
    as (lc & ld & yv & Hlc & Hld & Hyv & Sy & _).
  destruct (forward_returns_output w self x0v apv bpv Heng Hc x xv lc ld yv
              Hx Hlc Hld Hyv) as (y & w' & E & T).
  exists y, yv, w'. split; [exact E|]. split; [exact T|].
  split; [exact Sy|].
  split; [|split].
  - intros E0. rewrite E0 in Hb. now inversion Hb.
  - intros bs E1. rewrite E1 in Hb.
    pose proof (broadcast_keep bs D) as Hk.
    unfold broadcast_shapes in *. rewrite !rev_unit in *. simpl in *.
    rewrite bdim_one_l in *. rewrite bshape_rev_nil_r in Hb.
    simpl in Hb. rewrite rev_involutive in Hb. now inversion Hb.
  - intros bs m -> Em. rewrite Em in Hb.
    unfold broadcast_shapes in Hb. rewrite rev_unit in Hb. simpl in Hb.
    rewrite bdim_one_r, bshape_rev_nil_r in Hb. simpl in Hb.
    rewrite rev_involutive in Hb. now inversion Hb.
Qed.

Lemma forward_broadcasts_witness :
  exists y yv w',
    __call__ 0 3 Example2.w_scalar = (Ok (Some y), w') /\
    nth_error (tensors w') y = Some yv /\ tshape yv = [2].
Proof.
  destruct (forward_broadcasts Example2.w_scalar 0 3 Example.x0_ex
              Example.ap_ex Example.bp_ex Example2.s_ex 2 [2])
    as (y & yv & w' & E & T & S & _).
  - eexists. repeat split; reflexivity.
  - exact example_shapes.
  - intros o lx Ho Hlx. inversion Ho; subst o. discriminate.
  - reflexivity.
  - reflexivity.
  - exists y, yv, w'. auto.
Defined.

(** ** The log-determinant of the degenerate case *)

Section LogdetZero.
Variables (prec emax : Z) (lm : IEEE.libm).
Local Notation "'KF'" := (IEEE.FScalar prec emax lm).

(** X9: on floats of any precision, with a C library whose [log1p]
    maps a zero to a zero (as the C standard requires), when the derived
    [beta] is a zero the log-determinant of every batch element whose [r],
    [h] and [h^2] are finite is a zero, [D - 1] being representable. *)
Theorem logdet_zero_beta_zero (x0v apv bpv xv : @tensor KF) (D : nat)
    (bs : shape) :
  @radial_shapes KF D x0v apv bpv ->
  @tshape KF xv = bs ++ [D] ->
  (forall z, IEEE.is_zero z = true ->
             IEEE.is_zero (IEEE.c_log1p lm z) = true) ->
  IEEE.is_finite (IEEE.of_Z prec emax (Z.of_nat D - 1)) = true ->
  IEEE.is_zero (@rad_beta KF apv bpv) = true ->
  exists ld,
    @logdet_value KF x0v apv bpv xv = Ok ld /\
    @tshape KF ld = bs /\
    forall b, valid bs b = true ->
      IEEE.is_finite (@rad_r KF x0v xv D b) = true ->
      IEEE.is_finite (@rad_h KF x0v apv xv D b) = true ->
      IEEE.is_finite (SFmul prec emax (@rad_h KF x0v apv xv D b)
                                      (@rad_h KF x0v apv xv D b)) = true ->
      IEEE.is_zero (@tget KF ld b) = true.
Proof.
  intros Hsh Hs Hl HD Hb.
  destruct (@logdet_value_closed_form KF x0v apv bpv D Hsh xv bs Hs)
    as (ld & E & Sld & Gld).
  exists ld. split; [exact E|]. split; [exact Sld|].
  intros b V Fr Fh Fhh. rewrite (Gld b V). unfold rad_logdet.
  assert (Z1 : IEEE.is_zero
                 (SFmul prec emax (@rad_beta KF apv bpv)
                                  (@rad_h KF x0v apv xv D b)) = true)
    by now apply SFmul_zero_l.
  apply SFadd_zero_zero.
  - apply SFmul_zero_r; [exact HD|]. now apply Hl.
  - apply Hl. apply SFadd_zero_zero; [exact Z1|].
    apply SFmul_zero_l; [|exact Fr].
    apply SFmul_zero_l; [exact Hb|].
    unfold rad_h'. change (@s_neg KF) with SFopp.
    now rewrite SFopp_finite.
Qed.

End LogdetZero.

Lemma logdet_zero_beta_zero_witness :
  exists ld,
    logdet_value (ExampleF.vec 53 1024 (ExampleF.lm_ex 53 1024) [0; 0]%Z)
                 (ExampleF.vec 53 1024 (ExampleF.lm_ex 53 1024) [21]%Z)
                 (ExampleF.vec 53 1024 (ExampleF.lm_ex 53 1024) [21]%Z)
                 (ExampleF.vec 53 1024 (ExampleF.lm_ex 53 1024) [3; 4]%Z)
      = Ok ld /\
    IEEE.is_zero (tget ld []) = true.
Proof.
  destruct (logdet_zero_beta_zero 53 1024 (ExampleF.lm_ex 53 1024)
              (ExampleF.vec 53 1024 (ExampleF.lm_ex 53 1024) [0; 0]%Z)
              (ExampleF.vec 53 1024 (ExampleF.lm_ex 53 1024) [21]%Z)
              (ExampleF.vec 53 1024 (ExampleF.lm_ex 53 1024) [21]%Z)
              (ExampleF.vec 53 1024 (ExampleF.lm_ex 53 1024) [3; 4]%Z)
              2 [] ltac:(repeat split) eq_refl)
    as (ld & E & _ & G).
  - intros z Hz. destruct z; try discriminate; reflexivity.
  - reflexivity.
  - reflexivity.
  - exists ld. split; [exact E|].
    apply (G [] eq_refl); vm_compute; reflexivity.
Defined.

(** ** The center *)

Section Center.
Variables (prec emax : Z) (lm : IEEE.libm).
Local Notation "'KF'" := (IEEE.FScalar prec emax lm).

(** X10: the center is a fixed point, on floats of any precision and for
    every C library, as far as the arithmetic allows.  For an input whose
    batch elements all hold the elements of the center, the forward map
    returns a tensor of the same shape in which every component whose
    center element is finite and whose factor [beta h] is finite holds the
    number the center holds: the same float, or a zero for a zero. *)
Theorem center_fixed_point (w : @world KF) (self : eref) (x : loc)
    (x0v apv bpv xv : @tensor KF) (D : nat) (bs : shape) :
  @radial_engine KF w self x0v apv bpv ->
  @radial_shapes KF D x0v apv bpv ->
  nth_error (@tensors KF w) x = Some xv ->
  @tshape KF xv = bs ++ [D] ->
  (forall b i, valid bs b = true -> i < D ->
     @tget KF xv (b ++ [i]) = @tget KF x0v [i]) ->
  exists y yv w',
    @_call KF self x w = (Ok y, w') /\
    nth_error (@tensors KF w') y = Some yv /\
    @tshape KF yv = bs ++ [D] /\
    forall b i, valid bs b = true -> i < D ->
      IEEE.is_finite (@tget KF x0v [i]) = true ->
      IEEE.is_finite
        (SFmul prec emax (@rad_beta KF apv bpv) (@rad_h KF x0v apv xv D b))
        = true ->
      IEEE.same_number (@tget KF yv (b ++ [i])) (@tget KF x0v [i]).
Proof.
  intros Heng Hsh Hx Hs Hc.
  destruct (@forward_rad_y KF w self x x0v apv bpv xv D bs Heng Hsh Hx Hs)
    as [(y & yv & w' & E & T & Sy & Gy) _].
  exists y, yv, w'. split; [exact E|]. split; [exact T|].
  split; [exact Sy|].
  intros b i V L Fc Fb. rewrite (Gy b i V L). unfold rad_y.
  rewrite (Hc b i V L).
  exact (center_element prec emax _ _ Fb Fc).
Qed.

End Center.

Lemma center_fixed_point_witness :
  exists y yv w',
    _call 0 3 ExampleF.wf = (Ok y, w') /\
    nth_error (tensors w') y = Some yv /\
    IEEE.same_number (tget yv [0]) (IEEE.of_Z 53 1024 3).
Proof.
  destruct (center_fixed_point 53 1024 (ExampleF.lm_ex 53 1024)
              ExampleF.wf 0 3 _ _ _ _ 2 []
              (example_float_engine [3; 4]%Z [21]%Z [22]%Z [3; 4]%Z)
              ltac:(repeat split) eq_refl eq_refl)
    as (y & yv & w' & E & T & S & G).
  - intros b i V L. destruct b; [|discriminate].
    destruct i as [|[|i]]; [reflexivity|reflexivity|lia].
  - exists y, yv, w'. split; [exact E|]. split; [exact T|].
    apply (G [] 0 eq_refl); [lia| |]; vm_compute; reflexivity.
Defined.

(** ** An [alpha] that is zero *)

Section AlphaZero.
Variables (prec emax : Z) (lm : IEEE.libm).
Local Notation "'KF'" := (IEEE.FScalar prec emax lm).

Lemma s_sum_pos_zero (d : nat) (f : nat -> spec_float) :
  (forall j, j < d -> f j = S754_zero false) ->
  @s_sum KF d f = S754_zero false.
Proof.
  intros E.
  rewrite (@s_sum_ext KF d f (fun _ => S754_zero false) E).
  destruct d as [|k]; [reflexivity|]. simpl.
  generalize (seq 1 k). intros l. induction l as [|j l IH]; simpl; auto.
Qed.

Lemma SFmul_any_inf_zero be s z :
  IEEE.is_zero z = true ->
  SFmul prec emax (SFmul prec emax be (S754_infinity s)) z = S754_nan.
Proof.
  destruct z; try discriminate. intros _. destruct be; reflexivity.
Qed.

Lemma SFadd_nan_r a : SFadd prec emax a S754_nan = S754_nan.
Proof. destruct a; reflexivity. Qed.

(** X18: where [softplus(alpha_prime)] is a zero, as it is once [exp]
    underflows, the forward map sends the center to NaN.  On floats of a
    format in which 1 is a finite number, for every C library and every
    [beta_prime]: if [alpha] is a zero, every batch element of the input
    that holds the elements of a finite center has [r = 0] and
    [h = 1/0 = inf], and all its components of the output are NaN. *)
Theorem center_nan_alpha_zero (w : @world KF) (self : eref) (x : loc)
    (x0v apv bpv xv : @tensor KF) (D : nat) (bs : shape) (m : positive)
    (e : Z) :
  @radial_engine KF w self x0v apv bpv ->
  @radial_shapes KF D x0v apv bpv ->
  nth_error (@tensors KF w) x = Some xv ->
  @tshape KF xv = bs ++ [D] ->
  IEEE.of_Z prec emax 1 = S754_finite false m e ->
  IEEE.is_zero (@rad_alpha KF apv) = true ->
  exists y yv w',
    @_call KF self x w = (Ok y, w') /\
    nth_error (@tensors KF w') y = Some yv /\
    @tshape KF yv = bs ++ [D] /\
    forall b, valid bs b = true ->
      (forall j, j < D ->
         @tget KF xv (b ++ [j]) = @tget KF x0v [j] /\
         IEEE.is_finite (@tget KF x0v [j]) = true) ->
      (exists s, @rad_h KF x0v apv xv D b = S754_infinity s) /\
      forall i, i < D -> @tget KF yv (b ++ [i]) = S754_nan.
Proof.
  intros Heng Hsh Hx Hs H1 Ha.
  destruct (@forward_rad_y KF w self x x0v apv bpv xv D bs Heng Hsh Hx Hs)
    as [(y & yv & w' & E & T & Sy & Gy) _].
  exists y, yv, w'. split; [exact E|]. split; [exact T|].
  split; [exact Sy|].
  intros b V Hc.
  assert (Er : @rad_r KF x0v xv D b = S754_zero false).
  { unfold rad_r. rewrite s_sum_pos_zero; [reflexivity|].
    intros j Lj. destruct (Hc j Lj) as [-> F].
    cbn [s_sub s_mul IEEE.FScalar].
    now rewrite (SFsub_diag prec emax _ F). }
  assert (Eh : exists s, @rad_h KF x0v apv xv D b = S754_infinity s).
  { unfold rad_h. rewrite Er. cbn [s_recip s_add IEEE.FScalar]. rewrite H1.
    destruct (@rad_alpha KF apv) as [[|]| | |]; try discriminate;
      eexists; reflexivity. }
  split; [exact Eh|].
  intros i L. rewrite (Gy b i V L). unfold rad_y.
  destruct Eh as [s Eh]. rewrite Eh.
  destruct (Hc i L) as [-> F]. cbn [s_sub s_mul s_add IEEE.FScalar].
  rewrite (SFsub_diag prec emax _ F).
  rewrite SFmul_any_inf_zero by reflexivity.
  apply SFadd_nan_r.
Qed.

End AlphaZero.

Lemma center_nan_alpha_zero_witness :
  exists y yv w',
    _call 0 3 ExampleF.wu = (Ok y, w') /\
    nth_error (tensors w') y = Some yv /\
    tget yv [0] = S754_nan /\ tget yv [1] = S754_nan.
Proof.
  destruct (center_nan_alpha_zero 53 1024 (ExampleF.lm_ex 53 1024)
              ExampleF.wu 0 3 _ _ _ _ 2 [] _ _
              ltac:(eexists; repeat split; reflexivity)
              ltac:(repeat split) eq_refl eq_refl eq_refl eq_refl)
    as (y & yv & w' & E & T & _ & G).
  destruct (G [] eq_refl) as [_ N].
  - intros j L. destruct j as [|[|j]]; [split; reflexivity|
                                       split; reflexivity|lia].
  - exists y, yv, w'. split; [exact E|]. split; [exact T|].
    split; [apply (N 0); lia|apply (N 1); lia].
Defined.

(** ** [u_hat] *)

Section UHatFacts.
Context {K : Scalar} {KD : ScalarDiv K}.

Lemma removelast_snoc2 {A} (l : list A) a c :
  removelast (l ++ [a; c]) = l ++ [a].
Proof.
  change (l ++ [a; c]) with (l ++ [a] ++ [c]).
  rewrite app_assoc. apply removelast_last.
Qed.

Lemma last_snoc2 {A} (l : list A) a c d : last (l ++ [a; c]) d = c.
Proof.
  change (l ++ [a; c]) with (l ++ [a] ++ [c]).
  rewrite app_assoc. apply last_last.
Qed.

Lemma unsqueeze_before_last_snoc (a : tensor) bs d :
  tshape a = bs ++ [d] ->
  unsqueeze_before_last a =
  Ok (mkT (bs ++ [1; d])
          (fun ix => tget a (removelast (removelast ix) ++ [last ix 0]))).
Proof.
  intros E. unfold unsqueeze_before_last. rewrite E.
  destruct (bs ++ [d]) eqn:F; [now destruct bs|].
  rewrite <- F. now rewrite removelast_last, last_last.
Qed.

Lemma tsum_last_keepdim_snoc (a : tensor) bs d :
  tshape a = bs ++ [d] ->
  tsum_last_keepdim a =
  mkT (bs ++ [1])
      (fun ix => s_sum d (fun j => tget a (removelast ix ++ [j]))).
Proof.
  intros E. unfold tsum_last_keepdim. rewrite E.
  destruct (bs ++ [d]) eqn:F; [now destruct bs|].
  rewrite <- F. now rewrite removelast_last, last_last.
Qed.

(** The product of a batch of rows with a batch of columns. *)
Lemma matmul_row_col (A B : tensor) bs d :
  tshape A = bs ++ [1; d] ->
  tshape B = bs ++ [d; 1] ->
  exists C, matmul A B = Ok C /\ tshape C = bs ++ [1; 1] /\
    forall b, valid bs b = true ->
      tget C (b ++ [0; 0]) =
      s_sum d (fun j => s_mul (tget A (b ++ [0; j])) (tget B (b ++ [j; 0]))).
Proof.
  intros SA SB. unfold matmul. rewrite SA, SB, !length_app. simpl.
  rewrite !Nat.add_succ_r. simpl.
  unfold mm_core. rewrite SA, SB.
  rewrite !removelast_snoc2, !last_snoc2, !removelast_last, !last_last.
  rewrite Nat.eqb_refl, broadcast_same.
  eexists. split; [reflexivity|]. split; [reflexivity|].
  intros b V. simpl.
  rewrite !removelast_snoc2, !last_snoc2, !removelast_last, !last_last.
  now rewrite (bidx_valid bs b V).
Qed.

End UHatFacts.

Section UHatClosed.
Context {K : Scalar} {KD : ScalarDiv K}.

Lemma broadcast_keep_r bs d :
  broadcast_shapes (bs ++ [d]) (bs ++ [1]) = Some (bs ++ [d]).
Proof.
  unfold broadcast_shapes. rewrite !rev_unit. simpl.
  rewrite bdim_one_r, bshape_rev_refl. simpl. now rewrite rev_involutive.
Qed.

Lemma squeeze_last_one (a : tensor) bs :
  tshape a = bs ++ [1] -> squeeze_last a = drop_last a.
Proof.
  intros E. unfold squeeze_last. rewrite E.
  destruct (bs ++ [1]) eqn:F; [now destruct bs|].
  rewrite <- F. now rewrite last_last.
Qed.

(** The elements of [u_hat(u, w)] for two tensors of one shape. *)
Lemma u_hat_elements (u w : tensor) (bs : shape) (D : nat) :
  tshape u = bs ++ [D] ->
  tshape w = bs ++ [D] ->
  exists v, u_hat u w = Ok v /\ tshape v = bs ++ [D] /\
    forall b i, valid bs b = true -> i < D ->
      tget v (b ++ [i]) =
      s_add (tget u (b ++ [i]))
            (s_mul (s_sub (s_add (s_of_Z (-1)) (s_softplus (dot u w D b)))
                          (dot u w D b))
                   (s_div (tget w (b ++ [i])) (dot w w D b))).
Proof.
  intros Su Sw. unfold u_hat.
  rewrite (unsqueeze_before_last_snoc u bs D Su). simpl.
  set (u2 := mkT (bs ++ [1; D]) _).
  destruct (matmul_row_col u2 (unsqueeze_last w) bs D) as (m & -> & Sm & Gm).
  { reflexivity. }
  { simpl. rewrite Sw, <- app_assoc. reflexivity. }
  simpl.
  assert (Sm' : tshape m = (bs ++ [1]) ++ [1])
    by (rewrite Sm, <- app_assoc; reflexivity).
  rewrite (squeeze_last_one m (bs ++ [1]) Sm').
  set (al := drop_last m).
  assert (Sal : tshape al = bs ++ [1]).
  { unfold al, drop_last. simpl. rewrite Sm'. apply removelast_last. }
  assert (Gal : forall b, valid bs b = true ->
            tget al (b ++ [0]) = dot u w D b).
  { intros b V. unfold al, drop_last. simpl. rewrite <- app_assoc. simpl.
    rewrite (Gm b V). unfold dot. apply s_sum_ext. intros j L.
    unfold u2, unsqueeze_last. simpl.
    rewrite !removelast_snoc2, last_snoc2, removelast_last. reflexivity. }
  clearbody al.
  unfold tsub, tdiv, tmul, tadd.
  destruct (tmap2_spec s_sub
              (tmap (fun v => s_add (s_of_Z (-1)) (s_softplus v)) al) al
              (bs ++ [1])) as (d & -> & Sd & Gd).
  { simpl. rewrite Sal. apply broadcast_same. }
  simpl.
  rewrite (tsum_last_keepdim_snoc (tmap (fun v => s_mul v v) w) bs D Sw).
  set (ss := mkT (bs ++ [1]) _).
  destruct (tmap2_spec s_div w ss (bs ++ [D])) as (q & -> & Sq & Gq).
  { rewrite Sw. apply broadcast_keep_r. }
  simpl.
  destruct (tmap2_spec s_mul d q (bs ++ [D])) as (p & -> & Sp & Gp).
  { rewrite Sd, Sq. apply broadcast_keep. }
  simpl.
  destruct (tmap2_spec s_add u p (bs ++ [D])) as (v & -> & Sv & Gv).
  { rewrite Su, Sp. apply broadcast_same. }
  exists v. split; [reflexivity|]. split; [exact Sv|].
  intros b i V L.
  assert (Vi : valid (bs ++ [D]) (b ++ [i]) = true) by now apply valid_snoc.
  assert (V0 : valid (bs ++ [1]) (b ++ [0]) = true)
    by (apply valid_snoc; [exact V|lia]).
  rewrite Gv, Su, Sp, !(bidx_valid _ _ Vi).
  rewrite Gp, Sd, Sq, (bidx_keep bs b i V), (bidx_valid _ _ Vi).
  rewrite Gd. simpl. rewrite Sal, !(bidx_valid _ _ V0), (Gal b V).
  rewrite Gq, Sw, (bidx_valid _ _ Vi). unfold ss. simpl.
  rewrite (bidx_keep bs b i V), removelast_last.
  reflexivity.
Qed.

End UHatClosed.

(** X11: [u_hat(u, w)] for [u] and [w] of one shape [bs ++ [D]] returns a
    tensor of that shape whose batch element [b] is
    [u + ((-1 + softplus(u . w)) - u . w) * (w / (w . w))], the dot
    products being those of the batch elements [b] of [u] and [w], summed
    from the left; a 0-dimensional [u] is refused with an [IndexError] (by
    [unsqueeze(-2)]).  This holds for every implementation of the scalar
    operations, so for floats, where the division by [w . w] can give an
    infinity or NaN. *)
Theorem u_hat_closed_form {K : Scalar} {KD : ScalarDiv K} (u w : tensor) :
  (forall (bs : shape) (D : nat),
     tshape u = bs ++ [D] ->
     tshape w = bs ++ [D] ->
     exists v, u_hat u w = Ok v /\ tshape v = bs ++ [D] /\
       forall b i, valid bs b = true -> i < D ->
         tget v (b ++ [i]) =
         s_add (tget u (b ++ [i]))
               (s_mul (s_sub (s_add (s_of_Z (-1)) (s_softplus (dot u w D b)))
                             (dot u w D b))
                      (s_div (tget w (b ++ [i])) (dot w w D b)))) /\
  (tshape u = [] -> u_hat u w = Raise IndexError).
Proof.
  split.
  - intros bs D Su Sw. exact (u_hat_elements u w bs D Su Sw).
  - intros Su. unfold u_hat, unsqueeze_before_last. now rewrite Su.
Qed.

Lemma u_hat_closed_form_witness :
  exists v,
    @u_hat (IEEE.FScalar 53 1024 (ExampleF.lm_ex 53 1024))
           (FScalarDiv 53 1024 (ExampleF.lm_ex 53 1024))
           (ExampleF.vec 53 1024 (ExampleF.lm_ex 53 1024) [3; 4]%Z)
           (ExampleF.vec 53 1024 (ExampleF.lm_ex 53 1024) [1; 0]%Z) = Ok v /\
    tshape v = [2].
Proof.
  destruct (@u_hat_closed_form (IEEE.FScalar 53 1024 (ExampleF.lm_ex 53 1024))
              (FScalarDiv 53 1024 (ExampleF.lm_ex 53 1024))
              (ExampleF.vec 53 1024 (ExampleF.lm_ex 53 1024) [3; 4]%Z)
              (ExampleF.vec 53 1024 (ExampleF.lm_ex 53 1024) [1; 0]%Z))
    as [H _].
  destruct (H [] 2 eq_refl eq_refl) as (v & E & S & _).
  exists v. auto.
Defined.

(** ** [Radial] and its initialization *)

Section RadialInitFacts.
Context {K : Scalar}.


Lemma nth_error_app_r {A} (T L : list A) k :
  nth_error (T ++ L) (length T + k) = nth_error L k.
Proof.
  rewrite nth_error_app2 by lia. f_equal. lia.
Qed.

Lemma nth_error_app_0 {A} (T L : list A) :
  nth_error (T ++ L) (length T) = nth_error L 0.
Proof. rewrite nth_error_app2 by lia. now rewrite Nat.sub_diag. Qed.

Lemma nth_error_app_1 {A} (T L : list A) :
  nth_error (T ++ L) (S (length T)) = nth_error L 1.
Proof. rewrite nth_error_app2 by lia. f_equal. lia. Qed.

Lemma nth_error_app_2 {A} (T L : list A) :
  nth_error (T ++ L) (S (S (length T))) = nth_error L 2.
Proof. rewrite nth_error_app2 by lia. f_equal. lia. Qed.

Lemma nth_error_upd {A} (l : list A) n m a :
  nth_error (upd l n a) m =
  if m =? n then (if n <? length l then Some a else None) else nth_error l m.
Proof.
  destruct (m =? n) eqn:E.
  - apply Nat.eqb_eq in E. subst m. destruct (n <? length l) eqn:L.
    + apply nth_error_upd_same. now apply Nat.ltb_lt.
    + apply nth_error_None. rewrite length_upd. apply Nat.ltb_ge in L. lia.
  - apply nth_error_upd_other. now apply Nat.eqb_neq.
Qed.



End RadialInitFacts.

(** X12: [Radial(0)] (and [radial(0)]) raises [ZeroDivisionError]: line
    141 divides by the square root of the dimension. *)
Theorem Radial_zero_dimension {K : Scalar} (mem : nat -> index -> scalar)
    (gen : nat -> scalar) (w : world) :
  fst (new_Radial mem gen 0 w) = ZeroDivisionError /\
  fst (radial mem gen 0 w) = ZeroDivisionError.
Proof.
  assert (E : fst (new_Radial mem gen 0 w) = ZeroDivisionError).
  { unfold new_Radial, reset_parameters. cbn [engines tensors].
    rewrite <- (Nat.add_0_r (length (engines w))) at 1.
    rewrite nth_error_app_r. cbn [nth_error].
    unfold stdv_of. cbn [x0 tensors].
    rewrite <- (Nat.add_0_r (length (tensors w))) at 1.
    rewrite nth_error_app_r. reflexivity. }
  split; exact E.
Qed.





(** ** Re-initializing does not touch the cache *)

Section ResetFacts.
Context {K : Scalar}.

Lemma uniform__frame gen lo hi l w :
  engines (uniform_ gen lo hi l w) = engines w /\
  conds (uniform_ gen lo hi l w) = conds w /\
  trace (uniform_ gen lo hi l w) = trace w /\
  forall m, m <> l ->
    nth_error (tensors (uniform_ gen lo hi l w)) m = nth_error (tensors w) m.
Proof.
  unfold uniform_. destruct (nth_error (tensors w) l) as [t|]; simpl;
    repeat split; auto.
  intros m N. now apply nth_error_upd_other.
Qed.

Lemma fill_frame gen stdv p w :
  engines (snd (fill gen stdv p w)) = engines w /\
  conds (snd (fill gen stdv p w)) = conds w /\
  trace (snd (fill gen stdv p w)) = trace w /\
  forall m, p <> Some m ->
    nth_error (tensors (snd (fill gen stdv p w))) m = nth_error (tensors w) m.
Proof.
  unfold fill. destruct p as [l|]; simpl; [|repeat split; auto].
  destruct (uniform__frame gen (s_neg stdv) stdv l w) as (E & C & T & N).
  repeat split; auto; intros m Hm; apply N; congruence.
Qed.

Lemma same_but_parameters_refl o w : same_but_parameters o w w.
Proof. repeat split. Qed.

Lemma same_but_parameters_fill o gen stdv p w w1 :
  p = x0 o \/ p = alpha_prime o \/ p = beta_prime o ->
  same_but_parameters o w w1 ->
  same_but_parameters o w (snd (fill gen stdv p w1)).
Proof.
  intros Hp (E & C & T & N).
  destruct (fill_frame gen stdv p w1) as (E1 & C1 & T1 & N1).
  repeat split; try congruence.
  intros m H0 Ha Hb. rewrite N1; [now apply N|].
  destruct Hp as [->|[->| ->]]; assumption.
Qed.

(** [reset_parameters], returning or raising, changes nothing but the
    contents of the three parameter tensors of the object. *)
Lemma reset_parameters_frame gen self w o :
  nth_error (engines w) self = Some o ->
  same_but_parameters o w (snd (reset_parameters gen self w)).
Proof.
  intros Ho. unfold reset_parameters. rewrite Ho.
  destruct (stdv_of w o) as [stdv| | |];
    try apply same_but_parameters_refl.
  pose proof (same_but_parameters_fill o gen stdv (alpha_prime o) w w
                (or_intror (or_introl eq_refl))
                (same_but_parameters_refl o w)) as F1.
  destruct (fill gen stdv (alpha_prime o) w) as [r1 w1].
  simpl in F1. destruct r1 as [[]| | |]; try exact F1.
  pose proof (same_but_parameters_fill o (fun k => gen (1 + k)) stdv
                (beta_prime o) w w1 (or_intror (or_intror eq_refl)) F1)
    as F2.
  destruct (fill (fun k => gen (1 + k)) stdv (beta_prime o) w1) as [r2 w2].
  simpl in F2. destruct r2 as [[]| | |]; try exact F2.
  exact (same_but_parameters_fill o (fun k => gen (2 + k)) stdv (x0 o) w w2
           (or_introl eq_refl) F2).
Qed.

End ResetFacts.

(** X15: [reset_parameters] does not invalidate the cache.  After a
    forward pass [y = t(x)] that returned, a [reset_parameters] (returning
    or raising) leaves the object with the same cached pair and
    log-determinant, and every tensor that is not one of its three
    parameters, [y] and the cached log-determinant included, holding what
    it held; the next [t(x)] on the same tensor returns the object [y]
    computed with the old parameters, without running [_call]. *)
Theorem reset_parameters_keeps_cache {K : Scalar} (gen : nat -> scalar)
    (w : world) (self : eref) (x y : loc) (w1 : world) :
  __call__ self x w = (Ok (Some y), w1) ->
  let w2 := snd (reset_parameters gen self w1) in
  engines w2 = engines w1 /\
  __call__ self x w2 = (Ok (Some y), w2) /\
  forall o1 m, nth_error (engines w1) self = Some o1 ->
    x0 o1 <> Some m -> alpha_prime o1 <> Some m -> beta_prime o1 <> Some m ->
    nth_error (tensors w2) m = nth_error (tensors w1) m.
Proof.
  intros E w2.
  destruct (__call___caches w self x (Some y) w1 E) as (o1 & Ho1 & Ec).
  destruct (reset_parameters_frame gen self w1 o1 Ho1) as (He & _ & _ & Hn).
  fold w2 in He, Hn.
  split; [exact He|]. split.
  2:{ intros o m Ho. assert (o = o1) by congruence. subst o. apply Hn. }
  assert (Ho2 : nth_error (engines w2) self = Some o1) by now rewrite He.
  rewrite (__call___hit w2 self x o1 Ho2); [now rewrite Ec|].
  rewrite Ec. simpl. apply Nat.eqb_refl.
Qed.

Lemma reset_parameters_keeps_cache_witness :
  __call__ 0 3 (snd (reset_parameters Example3.gen_ex 0 Example3.wR1)) =
  (Ok (Some 9), snd (reset_parameters Example3.gen_ex 0 Example3.wR1)).
Proof.
  exact (proj1 (proj2 (@reset_parameters_keeps_cache RScalar Example3.gen_ex
                         Example3.wR 0 3 9 Example3.wR1 eq_refl))).
Defined.

(** ** The conditional transform end to end *)

Section ConditionalRuns.
Context {K : Scalar}.

Lemma condition_run w self context c ctxv a b g :
  nth_error (conds w) self = Some c ->
  nth_error (tensors w) context = Some ctxv ->
  nn c ctxv = Ok (a, b, g) ->
  condition self context w =
  (Ok (length (engines w)), after_condition w self context a b g).
Proof.
  intros Hc Hctx Hnn.
  unfold condition, bind, read_cond, value_of, lift, emit, alloc_tensor,
    new_ConditionedRadial, alloc_engine, after_condition.
  rewrite Hc. simpl. rewrite Hctx. simpl. rewrite Hnn. simpl.
  rewrite !length_app. simpl. rewrite <- !app_assoc. simpl.
  now rewrite !Nat.add_1_r.
Qed.

Lemma after_condition_engine w self context a b g :
  radial_engine (after_condition w self context a b g)
                (length (engines w)) a b g /\
  cache_consistent (after_condition w self context a b g)
                   (length (engines w)).
Proof.
  unfold after_condition. split.
  - eexists. cbn [engines]. split; [rewrite nth_error_app_0; reflexivity|].
    unfold field_value. cbn [x0 alpha_prime beta_prime tensors].
    rewrite nth_error_app_0, nth_error_app_1, nth_error_app_2.
    repeat split.
  - intros o lx Ho Hlx. cbn [engines] in Ho.
    rewrite nth_error_app_0 in Ho. inversion Ho; subst o. discriminate.
Qed.

End ConditionalRuns.

(** X16: the conditional transform end to end.  [conditional_radial]
    calls the constructor of the network with the context dimension, the
    hidden dimensions given, by default [[10 input_dim, 10 input_dim]],
    and the parameter dimensions [[input_dim, 1, 1]].  If the constructor
    raises, [conditional_radial] raises the same exception and leaves the
    store as it was.  If it returns a network, [conditional_radial]
    returns a new [ConditionalRadial] wrapping it; and if that network
    returns for a context three tensors of the shapes of the data model,
    [condition(context)] returns an object on which the forward map
    returns, for an input of shape [bs ++ [D]], a tensor holding the
    radial map with exactly the parameters the network returned. *)
Theorem conditional_radial_forward {K : Scalar}
    (DenseNN : nat -> list nat -> list nat -> result network)
    (D C : nat) (hidden_dims : option (list nat)) (w : world) :
  let hidden := match hidden_dims with
                | None => [D * 10; D * 10]
                | Some l => l
                end in
  (forall e, DenseNN C hidden [D; 1; 1] = Raise e ->
     conditional_radial DenseNN D C hidden_dims w = (Raise e, w)) /\
  (forall (net : network) (context x : loc) (ctxv a b g xv : tensor)
          (bs : shape),
     DenseNN C hidden [D; 1; 1] = Ok net ->
     nth_error (tensors w) context = Some ctxv ->
     net ctxv = Ok (a, b, g) ->
     radial_shapes D a b g ->
     nth_error (tensors w) x = Some xv ->
     tshape xv = bs ++ [D] ->
     exists c w1 e w2 y yv w3,
       conditional_radial DenseNN D C hidden_dims w = (Ok c, w1) /\
       nth_error (conds w1) c = Some (mkCond net) /\
       nth_error (conds w) c = None /\
       condition c context w1 = (Ok e, w2) /\
       __call__ e x w2 = (Ok (Some y), w3) /\
       nth_error (tensors w3) y = Some yv /\
       forward_value a b g xv = Ok yv /\
       trace w3 = trace w ++ [EvNN c context; EvCall e x]).
Proof.
  intros hidden. split.
  { intros e He. unfold conditional_radial. fold hidden. now rewrite He. }
  intros net context x ctxv a b g xv bs Hd Hctx Hnn Hsh Hx Hs.
  set (w1 := mkW (tensors w) (engines w) (conds w ++ [mkCond net]) (trace w)).
  assert (E1 : conditional_radial DenseNN D C hidden_dims w =
               (Ok (length (conds w)), w1)).
  { unfold conditional_radial. fold hidden. now rewrite Hd. }
  assert (Hc : nth_error (conds w1) (length (conds w)) = Some (mkCond net)).
  { unfold w1. cbn [conds]. now rewrite nth_error_app_0. }
  pose proof (condition_run w1 (length (conds w)) context _ ctxv a b g
                Hc Hctx Hnn) as E2.
  set (w2 := after_condition w1 (length (conds w)) context a b g) in *.
  destruct (after_condition_engine w1 (length (conds w)) context a b g)
    as [Heng Hcons]. fold w2 in Heng, Hcons.
  assert (Hx2 : nth_error (tensors w2) x = Some xv).
  { unfold w2, after_condition. cbn [tensors]. now apply nth_error_app_some. }
  destruct (forward_returns a b g D Hsh w2 (length (engines w1)) x xv bs
              Heng Hcons Hx2 Hs) as (y & yv & w3 & E3 & T3 & Hfv & _).
  exists (length (conds w)), w1, (length (engines w1)), w2, y, yv, w3.
  split; [exact E1|]. split; [exact Hc|].
  split; [apply nth_error_None; lia|].
  repeat split; try assumption.
  pose proof Heng as (o & Ho & _).
  assert (Hm : is_same x (fst (_cached_x_y o)) = false).
  { unfold w2, after_condition in Ho. cbn [engines] in Ho.
    rewrite nth_error_app_0 in Ho. inversion Ho; subst o. reflexivity. }
  pose proof (__call___trace_other_x w2 (length (engines w1)) x o Ho Hm) as Tr.
  rewrite E3 in Tr. simpl in Tr. rewrite Tr.
  unfold w2, after_condition. cbn [trace]. rewrite <- app_assoc. reflexivity.
Qed.

Lemma conditional_radial_forward_witness :
  conditional_radial Example5.DenseNN_ex 2 2 (Some []) ExampleF.wf =
    (Raise IndexError, ExampleF.wf) /\
  exists c w1 e w2 y yv w3,
    conditional_radial Example5.DenseNN_ex 2 2 None ExampleF.wf = (Ok c, w1) /\
    condition c 0 w1 = (Ok e, w2) /\
    __call__ e 3 w2 = (Ok (Some y), w3) /\
    nth_error (tensors w3) y = Some yv.
Proof.
  split.
  - exact (proj1 (conditional_radial_forward Example5.DenseNN_ex
                    2 2 (Some []) ExampleF.wf) IndexError eq_refl).
  - destruct (proj2 (conditional_radial_forward Example5.DenseNN_ex
                       2 2 None ExampleF.wf)
                _ 0 3 _ _ _ _ _ []
                eq_refl eq_refl eq_refl ltac:(repeat split) eq_refl eq_refl)
      as (c & w1 & e & w2 & y & yv & w3 & E1 & _ & _ & E2 & E3 & T & _).
    exists c, w1, e, w2, y, yv, w3. auto.
Defined.

(** ** An exception in line 59 *)

(** X17: [_call] is not atomic.  If lines 47-58 go through for an input
    [x] and line 59 raises, which parameters of the shapes of the data
    model exclude (X4, X5) but others allow, the forward pass raises
    with [_cached_logDetJ] already replaced by the log-determinant of [x]
    and [_cached_x_y] still naming the pair cached before; a later
    [log_abs_det_jacobian] on that pair is answered from the cache with
    the log-determinant of [x]. *)
Theorem failed_output_leaves_logdet {K : Scalar} (w : world) (self : eref)
    (x x1 y1 : loc) (o : ConditionedRadial) (lc : locals) (ld : tensor)
    (e : exn) :
  nth_error (engines w) self = Some o ->
  _cached_x_y o = (Some x1, Some y1) ->
  x <> x1 ->
  call_locals (field_value w (x0 o)) (field_value w (alpha_prime o))
    (field_value w (beta_prime o)) (field_value w (Some x)) = Ok lc ->
  call_logdet (field_value w (x0 o)) lc = Ok ld ->
  call_output (field_value w (Some x)) lc = Raise e ->
  let w' := after_failed_output w self x o ld in
  __call__ self x w = (Raise e, w') /\
  log_abs_det_jacobian self x1 y1 w' = (Ok (Some (length (tensors w))), w') /\
  nth_error (tensors w') (length (tensors w)) = Some ld.
Proof.
  intros Ho Ec N Hlc Hld Hy w'.
  assert (Hm : is_same x (fst (_cached_x_y o)) = false).
  { rewrite Ec. simpl. now apply Nat.eqb_neq. }
  split; [|split].
  - rewrite (__call___other_x w self x o Ho Hm). unfold call_outcome.
    now rewrite Hlc, Hld, Hy.
  - assert (Ho' : nth_error (engines w') self =
                  Some (mkCR (x0 o) (alpha_prime o) (beta_prime o)
                             (_cached_x_y o) (Some (length (tensors w))))).
    { unfold w', after_failed_output. cbn [engines].
      apply nth_error_upd_same. apply nth_error_Some. congruence. }
    rewrite (log_abs_det_jacobian_same_x w' self x1 y1 _ Ho'); [reflexivity|].
    cbn [_cached_x_y]. rewrite Ec. simpl. apply Nat.eqb_refl.
  - unfold w', after_failed_output. cbn [tensors].
    now rewrite nth_error_app_0.
Qed.

Lemma failed_output_leaves_logdet_witness :
  __call__ 0 4 Example4.wS1 = (Raise RuntimeError, Example4.wS2) /\
  log_abs_det_jacobian 0 3 6 Example4.wS2 = (Ok (Some 7), Example4.wS2).
Proof.
  pose proof (@failed_output_leaves_logdet RScalar Example4.wS1 0 4 3 6
                (mkCR (Some 0) (Some 1) (Some 2) (Some 3, Some 6) (Some 5))
                _ _ RuntimeError eq_refl eq_refl ltac:(discriminate)
                eq_refl eq_refl eq_refl) as (E1 & E2 & _).
  split; [exact E1|exact E2].
Defined.
